(** * Verification of the filtered-responses endpoint (src/index.ts)

    A shallow embedding of the request handler of [src/index.ts]: the JS
    values compared by the filter engine, the page-fetch loop, the bounded
    FIFO cache ([cache], [queue], [cacheData]), the filter block and the
    offset/limit windowing, followed by the theorems settled about them.

    Modelling conventions.
    - A JS string is the sequence of its UTF-16 code units; the model covers
      the code units below 256, which is what [string] holds.
    - A JS number is [JsNumber]: NaN, the two infinities, or a finite value
      given by the rational it denotes.  [StringToNumber] rounds the value
      of a numeric literal to binary64 ([roundToBinary64]: nearest, ties to
      even, subnormals, overflow to Infinity).
    - Integers of the handler (offsets, limits, lengths, page counts) are [Z].
      [parseInt] of the limit keeps the negative zero apart ([ParsedInt]),
      as the division of [pageCount] tells it from zero.  The offset of the
      fetch loop is advanced exactly in [fetchLoop] and as binary64 advances
      it in [fetchLoop64]; the two agree while the page counts reported are
      at most 2 ^ 53 ([fetchLoop64_exact]).
    - The remote API ([axios.get]) is a function from the requested offset to
      an optional page; [None] stands for a rejected promise. *)

From Stdlib Require Import ZArith QArith Qcanon String Ascii List Lia Bool.
From stdpp Require Import gmap strings list.
Import ListNotations.

Local Open Scope string_scope.
Local Open Scope Z_scope.

(** ** JS numbers and values *)

Inductive JsNumber : Type :=
  | NaN
  | NegInf
  | Fin (q : Q)
  | PosInf.

(** [value: number | string] *)
Inductive JsValue : Type :=
  | VNum (n : JsNumber)
  | VStr (s : string).

Definition Qltb (x y : Q) : bool :=
  (Qnum x * Zpos (Qden y) <? Qnum y * Zpos (Qden x))%Z.

(** Number::lessThan(x, y) of ECMA-262; [None] is its [undefined]. *)
Definition Number_lessThan (x y : JsNumber) : option bool :=
  match x, y with
  | NaN, _ => None
  | _, NaN => None
  | PosInf, _ => Some false
  | _, PosInf => Some true
  | _, NegInf => Some false
  | NegInf, _ => Some true
  | Fin a, Fin b => Some (Qltb a b)
  end.

(** Number::equal(x, y). *)
Definition Number_equal (x y : JsNumber) : bool :=
  match x, y with
  | Fin a, Fin b => Qeq_bool a b
  | PosInf, PosInf => true
  | NegInf, NegInf => true
  | _, _ => false
  end.

(** *** Strings: comparison by code units *)

Definition codeUnit (c : ascii) : Z := Z.of_N (N_of_ascii c).

(** The string branch of IsLessThan: [false] when [py] is a prefix of [px],
    [true] when [px] is a proper prefix of [py], otherwise the order of the
    code units at the first index where the two differ. *)
Fixpoint String_lessThan (px py : string) : bool :=
  match px, py with
  | _, EmptyString => false
  | EmptyString, String _ _ => true
  | String m px', String n py' =>
      if codeUnit m =? codeUnit n then String_lessThan px' py'
      else codeUnit m <? codeUnit n
  end.

(** *** StringToNumber *)

(** StrWhiteSpaceChar: TAB, LF, VT, FF, CR, SP and NBSP are the white space
    and line terminator code units below 256. *)
Definition isStrWhiteSpaceChar (c : ascii) : bool :=
  let n := codeUnit c in
  (n =? 9) || (n =? 10) || (n =? 11) || (n =? 12) || (n =? 13)
  || (n =? 32) || (n =? 160).

Fixpoint dropWhiteSpace (s : list ascii) : list ascii :=
  match s with
  | c :: s' => if isStrWhiteSpaceChar c then dropWhiteSpace s' else s
  | [] => []
  end.

Definition trimWhiteSpace (s : list ascii) : list ascii :=
  rev (dropWhiteSpace (rev (dropWhiteSpace s))).

(** The value of a digit in the given radix, if it is one. *)
Definition digitValue (radix : Z) (c : ascii) : option Z :=
  let n := codeUnit c in
  let v :=
    if (48 <=? n) && (n <=? 57) then Some (n - 48)
    else if (97 <=? n) && (n <=? 102) then Some (n - 87)
    else if (65 <=? n) && (n <=? 70) then Some (n - 55)
    else None in
  match v with
  | Some d => if d <? radix then Some d else None
  | None => None
  end.

(** Splits off the longest prefix of digits; returns their values. *)
Fixpoint spanDigits (radix : Z) (s : list ascii) : list Z * list ascii :=
  match s with
  | c :: s' =>
      match digitValue radix c with
      | Some d => let '(ds, r) := spanDigits radix s' in (d :: ds, r)
      | None => ([], s)
      end
  | [] => ([], [])
  end.

Definition digitsValue (radix : Z) (ds : list Z) : Z :=
  fold_left (fun acc d => acc * radix + d) ds 0.

Definition isChar (c : ascii) (ch : string) : bool :=
  match ch with
  | String d EmptyString => codeUnit c =? codeUnit d
  | _ => false
  end.

(** ExponentPart_opt at the end of a decimal literal: the exponent, or
    [None] when what is left is not an exponent part. *)
Definition parseExponent (s : list ascii) : option Z :=
  match s with
  | [] => Some 0
  | e :: s1 =>
      if isChar e "e" || isChar e "E" then
        let '(neg, s2) :=
          match s1 with
          | c :: s2 =>
              if isChar c "-" then (true, s2)
              else if isChar c "+" then (false, s2)
              else (false, s1)
          | [] => (false, s1)
          end in
        match spanDigits 10 s2 with
        | (d :: ds, []) =>
            let v := digitsValue 10 (d :: ds) in
            Some (if neg then - v else v)
        | _ => None
        end
      else None
  end.

(** StrUnsignedDecimalLiteral. *)
Definition parseUnsignedDecimal (s : list ascii) : JsNumber :=
  if String.eqb (string_of_list_ascii s) "Infinity" then PosInf
  else
    let '(ip, r1) := spanDigits 10 s in
    let '(fp, r2) :=
      match r1 with
      | c :: r => if isChar c "." then spanDigits 10 r else ([], r1)
      | [] => ([], r1)
      end in
    match ip, fp with
    | [], [] => NaN
    | _, _ =>
        match parseExponent r2 with
        | Some e =>
            Fin (inject_Z (digitsValue 10 (ip ++ fp)%list)
                 * Qpower (10 # 1) (e - Z.of_nat (length fp)))
        | None => NaN
        end
    end.

Definition negate (n : JsNumber) : JsNumber :=
  match n with
  | NaN => NaN
  | NegInf => PosInf
  | PosInf => NegInf
  | Fin q => Fin (Qopp q)
  end.

(** NonDecimalIntegerLiteral: 0b, 0o and 0x literals, which take no sign. *)
Definition parseNonDecimal (s : list ascii) : option JsNumber :=
  match s with
  | z :: p :: ds =>
      if isChar z "0" then
        let radix :=
          if isChar p "x" || isChar p "X" then Some 16
          else if isChar p "o" || isChar p "O" then Some 8
          else if isChar p "b" || isChar p "B" then Some 2
          else None in
        match radix with
        | Some r =>
            match spanDigits r ds with
            | (d :: dv, []) => Some (Fin (inject_Z (digitsValue r (d :: dv))))
            | _ => Some NaN
            end
        | None => None
        end
      else None
  | _ => None
  end.

(** The mathematical value of a string read as a StringNumericLiteral:
    white space is trimmed, the empty string is 0, a StrNumericLiteral has
    its value, and anything else is NaN. *)
Definition literalValue (str : string) : JsNumber :=
  match trimWhiteSpace (list_ascii_of_string str) with
  | [] => Fin 0
  | (c :: s') as s =>
      match parseNonDecimal s with
      | Some n => n
      | None =>
          if isChar c "-" then negate (parseUnsignedDecimal s')
          else if isChar c "+" then parseUnsignedDecimal s'
          else parseUnsignedDecimal s
      end
  end.

(** The binary64 value nearest to the positive rational [a / b], ties to
    the even significand: [e] is the binary exponent of the rational, [u]
    the exponent of the unit in the last place of its 53-bit significand
    (of a subnormal below 2 ^ -1022), [m'] the significand rounded; a result
    of 2 ^ 1024 or more is Infinity. *)
Definition roundPositive (a b : Z) : JsNumber :=
  let e0 := Z.log2 a - Z.log2 b in
  let e :=
    if (if 0 <=? e0 then 2 ^ e0 * b <=? a else b <=? a * 2 ^ (- e0))
    then e0 else e0 - 1 in
  let u := Z.max (e - 52) (-1074) in
  let N := if 0 <=? u then a else a * 2 ^ (- u) in
  let D := if 0 <=? u then b * 2 ^ u else b in
  let m := N / D in
  let r := N mod D in
  let m' :=
    if 2 * r <? D then m
    else if D <? 2 * r then m + 1
    else if Z.even m then m else m + 1 in
  if 0 <=? u then
    if 2 ^ 1024 <=? m' * 2 ^ u then PosInf else Fin (inject_Z (m' * 2 ^ u))
  else Fin (Qred (m' # Z.to_pos (2 ^ (- u)))).

(** The Number value for a rational. *)
Definition roundToBinary64 (q : Q) : JsNumber :=
  match Qnum q with
  | 0 => Fin 0
  | Zpos a => roundPositive (Zpos a) (Zpos (Qden q))
  | Zneg a => negate (roundPositive (Zpos a) (Zpos (Qden q)))
  end.

(** StringToNumber(str): the Number value for the mathematical value of
    the literal. *)
Definition StringToNumber (str : string) : JsNumber :=
  match literalValue str with
  | Fin q => roundToBinary64 q
  | n => n
  end.

Definition ToNumber (v : JsValue) : JsNumber :=
  match v with
  | VNum n => n
  | VStr s => StringToNumber s
  end.

(** IsLessThan(x, y): two strings are compared as strings, anything else
    after ToNumber. *)
Definition IsLessThan (x y : JsValue) : option bool :=
  match x, y with
  | VStr px, VStr py => Some (String_lessThan px py)
  | _, _ => Number_lessThan (ToNumber x) (ToNumber y)
  end.

(** [x < y]: an undefined comparison is [false]. *)
Definition js_lt (x y : JsValue) : bool :=
  match IsLessThan x y with
  | Some b => b
  | None => false
  end.

(** [x > y] is IsLessThan(y, x). *)
Definition js_gt (x y : JsValue) : bool :=
  match IsLessThan y x with
  | Some b => b
  | None => false
  end.

(** [x === y]: values of different types are never equal. *)
Definition js_strict_eq (x y : JsValue) : bool :=
  match x, y with
  | VNum a, VNum b => Number_equal a b
  | VStr a, VStr b => String.eqb a b
  | _, _ => false
  end.

(** The number value of an integer. *)
Definition num (z : Z) : JsValue := VNum (Fin (inject_Z z)).

(** ** Data model *)

(** The [condition] field of a filter clause. *)
Inductive ConditionKind : Type :=
  | equals
  | does_not_equal
  | greater_than
  | less_than.

(** [FilterClauseType]: [{ id, condition, value }]. *)
Record FilterClauseType : Type := {
  filter_id : string;
  filter_condition : ConditionKind;
  filter_value : JsValue
}.

Definition ResponseFiltersType : Type := list FilterClauseType.

(** [HasIdWithValue]: a question of a submission, [{ id, value }]. *)
Record HasIdWithValue : Type := {
  question_id : string;
  question_value : JsValue
}.

(** [Submission]: the handler only reads [questions]; [submissionId] stands
    for the rest of the record, which it passes along untouched. *)
Record Submission : Type := {
  submissionId : string;
  questions : list HasIdWithValue
}.

(** ** The filter block (lines 155-186) *)

(** [conditions]: the Map filled by [filters.forEach], keyed by filter id. *)
Definition buildConditions (filters : ResponseFiltersType)
  : gmap string FilterClauseType :=
  fold_left (fun conditions filter => <[filter_id filter := filter]> conditions)
            filters ∅.

(** The value pushed on [checks] by the [switch] for one question. *)
Definition evalCondition (condition : FilterClauseType)
    (question : HasIdWithValue) : bool :=
  match filter_condition condition with
  | equals =>
      js_strict_eq (question_value question) (filter_value condition)
  | does_not_equal =>
      negb (js_strict_eq (question_value question) (filter_value condition))
  | greater_than => js_gt (question_value question) (filter_value condition)
  | less_than => js_lt (question_value question) (filter_value condition)
  end.

(** [checks] after [response.questions.forEach]. *)
Definition collectChecks (conditions : gmap string FilterClauseType)
    (response : Submission) : list bool :=
  fold_left
    (fun checks question =>
       match conditions !! question_id question with
       | Some condition => (checks ++ [evalCondition condition question])%list
       | None => checks
       end)
    (questions response) [].

(** [Array.prototype.findIndex]: the first index whose element satisfies
    the predicate, or -1. *)
Fixpoint findIndex {A : Type} (p : A -> bool) (l : list A) : Z :=
  match l with
  | [] => -1
  | x :: l' =>
      if p x then 0
      else let i := findIndex p l' in if i =? -1 then -1 else i + 1
  end.

(** The callback given to [responses.filter]. *)
Definition keepResponse (conditions : gmap string FilterClauseType)
    (response : Submission) : bool :=
  let checks := collectChecks conditions response in
  let failed := findIndex negb checks in
  failed =? -1.

(** The whole block: [filters] is [None] when the query has no [filters]
    string, otherwise the list [JSON.parse] returns. *)
Definition filterResponses (filters : option ResponseFiltersType)
    (responses : list Submission) : list Submission :=
  match filters with
  | Some fs =>
      let conditions := buildConditions fs in
      List.filter (keepResponse conditions) responses
  | None => responses
  end.

(** ** The cache (lines 65-79) *)

(** A JS [Map] with string keys: the entries in insertion order.  [set] on a
    key already present replaces the value where it stands, [set] on a new
    key appends, [delete] removes the entry. *)
Section JsMap.
Context {V : Type}.

Fixpoint map_get (m : list (string * V)) (k : string) : option V :=
  match m with
  | [] => None
  | (k', v) :: m' => if String.eqb k' k then Some v else map_get m' k
  end.

Definition map_has (m : list (string * V)) (k : string) : bool :=
  match map_get m k with
  | Some _ => true
  | None => false
  end.

Fixpoint map_set (m : list (string * V)) (k : string) (v : V)
  : list (string * V) :=
  match m with
  | [] => [(k, v)]
  | (k', v') :: m' =>
      if String.eqb k' k then (k', v) :: m' else (k', v') :: map_set m' k v
  end.

Fixpoint map_delete (m : list (string * V)) (k : string)
  : list (string * V) :=
  match m with
  | [] => []
  | (k', v') :: m' =>
      if String.eqb k' k then m' else (k', v') :: map_delete m' k
  end.

Definition map_keys (m : list (string * V)) : list string := map fst m.
End JsMap.

(** The two module-level variables [cache] and [queue]. *)
Record ServerState : Type := {
  cache : list (string * list Submission);
  queue : list string
}.

Definition initialState : ServerState := {| cache := []; queue := [] |}.

Definition maxLen : nat := 10.

(** [cacheData(key, responses)].  [queue.shift()] on an empty queue would
    return [undefined], which no entry has as its key. *)
Definition cacheData (key : string) (responses : list Submission)
    (st : ServerState) : ServerState :=
  let st1 :=
    if Nat.eqb (length (queue st)) maxLen then
      match queue st with
      | oldestResponse :: rest =>
          {| cache := map_delete (cache st) oldestResponse; queue := rest |}
      | [] => st
      end
    else st in
  {| cache := map_set (cache st1) key responses;
     queue := (queue st1 ++ [key])%list |}.

(** ** The request and its cache key (lines 69, 105-126) *)

(** What [parseInt] returns for a string that passed [isInt]: an integer, or
    the negative zero of the string "-0", which [isInt({ min: 0 })] lets
    through as well. *)
Inductive ParsedInt : Type :=
  | NegativeZero
  | Integer (z : Z).

(** The integer a parsed number is equal to. *)
Definition intValue (p : ParsedInt) : Z :=
  match p with
  | NegativeZero => 0
  | Integer z => z
  end.

(** [params]: the five query parameters sent on to the remote API, each
    [None] when the request does not carry it. *)
Record Params : Type := {
  afterDate : option string;
  beforeDate : option string;
  status : option string;
  includeEditLink : option string;
  sort : option string
}.

(** What the handler reads of a validated request: the route parameter
    [formId], the query parameters copied into [params], and [filters],
    [offset], [limit] after [JSON.parse] and [parseInt] ([None] when the
    query parameter is not a string).  The offset is read by [slice] and by
    the sum [resLimit + resOffset] only, for which the -0 of the string
    "-0" is 0; the limit is also a divisor, so it keeps the sign of its
    zero. *)
Record Request : Type := {
  formId : string;
  params : Params;
  filters : option ResponseFiltersType;
  offset : option Z;
  limit : option ParsedInt
}.

Definition hexDigit (n : Z) : ascii :=
  ascii_of_nat (Z.to_nat (if n <? 10 then 48 + n else 87 + n)).

Definition quoteChar : ascii := ascii_of_nat 34.
Definition backslash : ascii := ascii_of_nat 92.

(** QuoteJSONString escapes the quote, the backslash and the control
    characters. *)
Definition escapeChar (c : ascii) : string :=
  let n := codeUnit c in
  if n =? 8 then String backslash "b"
  else if n =? 9 then String backslash "t"
  else if n =? 10 then String backslash "n"
  else if n =? 12 then String backslash "f"
  else if n =? 13 then String backslash "r"
  else if n =? 34 then String backslash (String quoteChar "")
  else if n =? 92 then String backslash (String backslash "")
  else if n <? 32 then
    String backslash
      (String "u" (String "0" (String "0"
         (String (hexDigit (n / 16)) (String (hexDigit (n mod 16)) "")))))
  else String c "".

Fixpoint escapeString (s : string) : string :=
  match s with
  | EmptyString => EmptyString
  | String c s' => (escapeChar c ++ escapeString s')%string
  end.

Definition QuoteJSONString (s : string) : string :=
  String quoteChar (escapeString s ++ String quoteChar "")%string.

(** One property of the object handed to [JSON.stringify]; a property whose
    value is [undefined] is left out. *)
Definition jsonMember (name : string) (v : option string) : list string :=
  match v with
  | Some s => [(QuoteJSONString name ++ ":" ++ QuoteJSONString s)%string]
  | None => []
  end.

(** [JSON.stringify] of an object whose property values are strings or
    [undefined], the properties in their order of creation. *)
Definition JSON_stringify (members : list (string * option string)) : string :=
  ("{" ++ String.concat ","
            (flat_map (fun m => jsonMember (fst m) (snd m)) members)
       ++ "}")%string.

(** [createHash]: [(params: object) => JSON.stringify(params)]. *)
Definition createHash (params : list (string * option string)) : string :=
  JSON_stringify params.

(** The properties of [params], in the order the object literal lists them. *)
Definition paramsObject (p : Params) : list (string * option string) :=
  [ ("afterDate", afterDate p);
    ("beforeDate", beforeDate p);
    ("status", status p);
    ("includeEditLink", includeEditLink p);
    ("sort", sort p) ].

(** [key = createHash({ formId: req.params.formId, ...params })]. *)
Definition cacheKey (req : Request) : string :=
  createHash (("formId", Some (formId req)) :: paramsObject (params req)).

(** ** The fetch loop (lines 123-143) *)

(** [resp.data] of one page. *)
Record PageData : Type := {
  page_responses : list Submission;
  page_pageCount : Z
}.

(** [getPage] of one request: what the remote API answers at each offset,
    [None] when [axios.get] rejects (network error or non-2xx status). *)
Definition GetPage : Type := Z -> option PageData.

(** The remote API: what it answers for a form, the [params] of a request
    and an offset. *)
Definition RemoteApi : Type := string -> Params -> GetPage.

(** [totalPages]: [Number.POSITIVE_INFINITY] until a page was read. *)
Inductive PageBound : Type :=
  | POSITIVE_INFINITY
  | Count (pageCount : Z).

(** [offset < totalPages] *)
Definition offset_lt (offset : Z) (totalPages : PageBound) : bool :=
  match totalPages with
  | POSITIVE_INFINITY => true
  | Count n => offset <? n
  end.

Inductive FetchOutcome : Type :=
  | Fetched (responses : list Submission)
  | FetchFailed
  | OutOfFuel.

(** The [while] loop, run for at most [fuel] tests of its condition.  Next
    to the outcome it returns the offsets it requested, in order. *)
Fixpoint fetchLoop (fuel : nat) (getPage : GetPage)
    (responses : list Submission) (offset : Z) (totalPages : PageBound)
  : FetchOutcome * list Z :=
  match fuel with
  | O => (OutOfFuel, [])
  | S fuel' =>
      if offset_lt offset totalPages then
        match getPage offset with
        | Some resp =>
            let '(out, reqs) :=
              fetchLoop fuel' getPage
                (responses ++ page_responses resp)%list
                (offset + 150)
                (Count (page_pageCount resp)) in
            (out, offset :: reqs)
        | None => (FetchFailed, [offset])
        end
      else (Fetched responses, [])
  end.

(** The loop from its initial state: [responses = []], [offset = 0],
    [totalPages = Number.POSITIVE_INFINITY]. *)
Definition fetchAll (fuel : nat) (getPage : GetPage) : FetchOutcome * list Z :=
  fetchLoop fuel getPage [] 0 POSITIVE_INFINITY.

(** *** The loop in binary64 *)

(** [offset += 150] as binary64 computes it: the sum rounded to the nearest
    value with a 53-bit significand.  (No sum of an offset the loop reaches
    and 150 comes near the largest finite value.) *)
Definition addPageSize (offset : Z) : Z :=
  match roundToBinary64 (inject_Z (offset + 150)) with
  | Fin q => Qnum q / Zpos (Qden q)
  | _ => offset + 150
  end.

(** The [while] loop with the offset advanced as binary64 advances it.
    [fetchLoop] above is this loop with the exact sum [offset + 150], which
    is what binary64 computes as long as the offset is below 2 ^ 53. *)
Fixpoint fetchLoop64 (fuel : nat) (getPage : GetPage)
    (responses : list Submission) (offset : Z) (totalPages : PageBound)
  : FetchOutcome * list Z :=
  match fuel with
  | O => (OutOfFuel, [])
  | S fuel' =>
      if offset_lt offset totalPages then
        match getPage offset with
        | Some resp =>
            let '(out, reqs) :=
              fetchLoop64 fuel' getPage
                (responses ++ page_responses resp)%list
                (addPageSize offset)
                (Count (page_pageCount resp)) in
            (out, offset :: reqs)
        | None => (FetchFailed, [offset])
        end
      else (Fetched responses, [])
  end.

Definition fetchAll64 (fuel : nat) (getPage : GetPage)
  : FetchOutcome * list Z :=
  fetchLoop64 fuel getPage [] 0 POSITIVE_INFINITY.

(** ** Windowing (lines 146-153, 188-192) *)

(** [Array.prototype.slice(start, end)]: a negative index counts from the
    end, both are clamped to the array. *)
Definition js_slice {A : Type} (l : list A) (start end_ : Z) : list A :=
  let len := Z.of_nat (length l) in
  let k := if start <? 0 then Z.max (len + start) 0 else Z.min start len in
  let final := if end_ <? 0 then Z.max (len + end_) 0 else Z.min end_ len in
  take (Z.to_nat (final - k)) (drop (Z.to_nat k) l).

(** Ceiling of the quotient of two integers, the divisor not 0. *)
Definition ceilDiv (n d : Z) : Z := - ((- n) / d).

(** [Math.ceil(n / d)] for integers [n] and [d]: a division by 0 gives NaN
    or an infinity. *)
Definition Math_ceil_div (n d : Z) : JsNumber :=
  if d =? 0 then
    if n =? 0 then NaN else if 0 <? n then PosInf else NegInf
  else Fin (inject_Z (ceilDiv n d)).

(** The body sent by [res.send] or [res.json]. *)
Inductive Payload : Type :=
  | Page (responses : list Submission) (totalResponses : Z)
         (pageCount : JsNumber)
  | Error (error : string).

Definition resOffset (req : Request) : Z :=
  match offset req with Some o => o | None => 0 end.

(** [resLimit] as [parseInt] left it: the limit of the request, 150 when
    it has none. *)
Definition parsedLimit (req : Request) : ParsedInt :=
  match limit req with Some l => l | None => Integer 150 end.

Definition resLimit (req : Request) : Z := intValue (parsedLimit req).

(** [Math.ceil(n / resLimit)]: a division by the negative zero has the
    opposite sign of a division by 0. *)
Definition Math_ceil_quotient (n : Z) (l : ParsedInt) : JsNumber :=
  match l with
  | Integer d => Math_ceil_div n d
  | NegativeZero => negate (Math_ceil_div n 0)
  end.

(** The payload built from the unfiltered dataset (lines 146-192). *)
Definition respond (req : Request) (responses : list Submission) : Payload :=
  let responses := filterResponses (filters req) responses in
  Page (js_slice responses (resOffset req) (resLimit req + resOffset req))
       (Z.of_nat (length responses))
       (Math_ceil_quotient (Z.of_nat (length responses)) (parsedLimit req)).

(** ** The handler *)

(** One run of the handler on a request that passed validation (the early
    return on [validationResult] is not part of the model): the payload and
    the state it leaves, [None] when the fuel does not suffice for the
    loop. *)
Definition handler (fuel : nat) (api : RemoteApi) (req : Request)
    (st : ServerState) : option (Payload * ServerState) :=
  let getPage := api (formId req) (params req) in
  let key := cacheKey req in
  if map_has (cache st) key then
    match map_get (cache st) key with
    | Some cached => Some (respond req cached, st)
    | None => None
    end
  else
    match fst (fetchAll fuel getPage) with
    | Fetched responses =>
        Some (respond req responses, cacheData key responses st)
    | FetchFailed => Some (Error "Request failed!", st)
    | OutOfFuel => None
    end.

(** ** States the server can reach *)

(** The states reached from the initial one by calls of [cacheData], with
    any key: also a key that is already cached, as happens when two
    requests for one key miss the cache before either has stored its
    result.  A request served from the cache leaves the state as it is. *)
Inductive reachable : ServerState -> Prop :=
  | reach_init : reachable initialState
  | reach_cacheData st key responses :
      reachable st -> reachable (cacheData key responses st).

(** The invariant that ties the queue to the cache: the keys of the cache,
    in their insertion order, are pairwise distinct and form a subsequence
    of the queue, which never holds more than [maxLen] keys. *)
Definition cacheInv (st : ServerState) : Prop :=
  NoDup (map_keys (cache st))
  /\ map_keys (cache st) `sublist_of` queue st
  /\ (length (queue st) <= maxLen)%nat.

(** *** Example states *)

(** The state after caching an empty dataset under each key in turn. *)
Definition cacheAll (keys : list string) (st : ServerState) : ServerState :=
  fold_left (fun st key => cacheData key [] st) keys st.

(** Ten distinct keys: the cache is at capacity. *)
Definition fullState : ServerState :=
  cacheAll ["k0"; "k1"; "k2"; "k3"; "k4"; "k5"; "k6"; "k7"; "k8"; "k9"]
           initialState.

(** The key ["k0"] cached twice, then eight other keys: the queue is full
    and holds ["k0"] in its first two slots. *)
Definition duplicateState : ServerState :=
  cacheAll ["k0"; "k0"; "k1"; "k2"; "k3"; "k4"; "k5"; "k6"; "k7"; "k8"]
           initialState.

(** ** Reading the filter block *)

(** The clause [conditions.get(k)] returns after the [forEach] that fills
    the Map: the last clause of the list whose id is [k]. *)
Fixpoint lastClause (k : string) (fs : ResponseFiltersType)
  : option FilterClauseType :=
  match fs with
  | [] => None
  | f :: fs' =>
      match lastClause k fs' with
      | Some c => Some c
      | None => if String.eqb (filter_id f) k then Some f else None
      end
  end.

(** A clause holds for a record when each answer of the record to the
    question it names passes it. *)
Definition clauseHolds (c : FilterClauseType) (r : Submission) : Prop :=
  forall q, q ∈ questions r -> question_id q = filter_id c ->
            evalCondition c q = true.

(** Two clauses on one question, and a record that passes the second of
    them only. *)
Definition twoClauses : ResponseFiltersType :=
  [ {| filter_id := "q1"; filter_condition := equals; filter_value := num 1 |};
    {| filter_id := "q1"; filter_condition := equals; filter_value := num 2 |} ].

Definition answersTwo : Submission :=
  {| submissionId := "s1";
     questions := [ {| question_id := "q1"; question_value := num 2 |} ] |}.

(** ** Reading the comparison clauses *)

(** The lexicographic order of strings by code units: a proper prefix comes
    first, otherwise the first code unit that differs decides. *)
Inductive lex_lt : string -> string -> Prop :=
  | lex_prefix c t : lex_lt EmptyString (String c t)
  | lex_first c d s t :
      codeUnit c < codeUnit d -> lex_lt (String c s) (String d t)
  | lex_rest c s t : lex_lt s t -> lex_lt (String c s) (String c t).

(** The character of a decimal digit. *)
Definition digitChar (d : Z) : ascii := ascii_of_nat (Z.to_nat (48 + d)).

(** The decimal numeral with the given digits, the most significant first;
    its value is [digitsValue 10] of them. *)
Definition decimalNumeral (ds : list Z) : string :=
  string_of_list_ascii (map digitChar ds).

Definition isDecimalDigit (d : Z) : Prop := 0 <= d <= 9.

(** The two operands of a [greater_than] or [less_than] clause, the one that
    has to be the smaller first. *)
Definition comparisonOperands (c : FilterClauseType) (q : HasIdWithValue)
  : JsValue * JsValue :=
  match filter_condition c with
  | greater_than => (filter_value c, question_value q)
  | _ => (question_value q, filter_value c)
  end.

(** [Number_lessThan] with its [undefined] read as [false]. *)
Definition numberBelow (x y : JsNumber) : bool :=
  match Number_lessThan x y with
  | Some b => b
  | None => false
  end.

(** The clause [q1 greater_than "5"], a string, and the answer 7, a number. *)
Definition greaterThanFive : FilterClauseType :=
  {| filter_id := "q1"; filter_condition := greater_than;
     filter_value := VStr "5" |}.

Definition answerSeven : HasIdWithValue :=
  {| question_id := "q1"; question_value := num 7 |}.

(** The clause [q1 less_than "abc"], whose value is no numeric literal. *)
Definition lessThanAbc : FilterClauseType :=
  {| filter_id := "q1"; filter_condition := less_than;
     filter_value := VStr "abc" |}.

(** ** Example requests *)

Definition noParams : Params :=
  {| afterDate := None; beforeDate := None; status := None;
     includeEditLink := None; sort := None |}.

(** A request that carries neither filters nor offset nor limit. *)
Definition plainRequest : Request :=
  {| formId := "form"; params := noParams;
     filters := None; offset := None; limit := None |}.

(** The same request, asking for the submissions in ascending order. *)
Definition sortedRequest : Request :=
  {| formId := "form";
     params := {| afterDate := None; beforeDate := None; status := None;
                  includeEditLink := None; sort := Some "asc" |};
     filters := None; offset := None; limit := None |}.

(** ** Runs of the fetch loop *)

(** The runs of the [while] loop that end, from a state of its three
    variables to the outcome and the offsets requested on the way. *)
Inductive loopRun (getPage : GetPage)
  : list Submission -> Z -> PageBound -> FetchOutcome -> list Z -> Prop :=
  | run_exit responses offset totalPages :
      offset_lt offset totalPages = false ->
      loopRun getPage responses offset totalPages (Fetched responses) []
  | run_catch responses offset totalPages :
      offset_lt offset totalPages = true ->
      getPage offset = None ->
      loopRun getPage responses offset totalPages FetchFailed [offset]
  | run_page responses offset totalPages resp out reqs :
      offset_lt offset totalPages = true ->
      getPage offset = Some resp ->
      loopRun getPage (responses ++ page_responses resp)%list (offset + 150)
              (Count (page_pageCount resp)) out reqs ->
      loopRun getPage responses offset totalPages out (offset :: reqs).

(** The offsets 0, 150, 300, ... of [n] successive pages from [start]. *)
Definition pageOffsets (start : Z) (n : nat) : list Z :=
  map (fun i => start + 150 * Z.of_nat i) (seq 0 n).

(** *** Example remotes *)

(** A remote API that holds the given pages: asked at offset 150 * i it
    answers with page i (an empty page beyond the last one) and reports the
    number of pages it holds. *)
Definition pagedRemote (pages : list (list Submission)) : GetPage :=
  fun offset =>
    Some {| page_responses := nth (Z.to_nat (offset / 150)) pages [];
            page_pageCount := Z.of_nat (length pages) |}.

(** [n] records numbered from [a]. *)
Definition recordsFrom (a n : nat) : list Submission :=
  map (fun i => {| submissionId := String (ascii_of_nat i) EmptyString;
                   questions := [] |})
      (seq a n).

(** A dataset of 151 records: a full page of 150 and a page of one. *)
Definition twoPages : list (list Submission) :=
  [recordsFrom 0 150; recordsFrom 150 1].

(** A remote whose pages are empty and which reports 2 ^ 62 pages on each
    of them. *)
Definition hugeRemote : GetPage :=
  fun offset =>
    Some {| page_responses := []; page_pageCount := 2 ^ 62 |}.

(** A remote whose first page reports 301 pages and whose second request
    fails. *)
Definition failingRemote : GetPage :=
  fun offset =>
    if offset =? 0 then
      Some {| page_responses := recordsFrom 0 150; page_pageCount := 301 |}
    else None.

(** A request that differs from [plainRequest] in filters, offset and
    limit only. *)
Definition windowedRequest : Request :=
  {| formId := "form"; params := noParams;
     filters := Some twoClauses; offset := Some 1;
     limit := Some (Integer 1) |}.

(** ** Sequences of requests *)

(** The states reached from the initial one by runs of the handler that
    follow one another, each ending before the next begins. *)
Inductive served : ServerState -> Prop :=
  | served_init : served initialState
  | served_run fuel api req st payload st' :
      served st ->
      handler fuel api req st = Some (payload, st') ->
      served st'.

(** The key whose entry a call of [cacheData] deletes: the head of a full
    queue. *)
Definition evictedKey (st : ServerState) : option string :=
  if Nat.eqb (length (queue st)) maxLen then head (queue st) else None.

(** What holds of cache and queue when requests are served one after the
    other: the queue lists the keys of the cache, in order and once each. *)
Definition seqInv (st : ServerState) : Prop :=
  queue st = map_keys (cache st)
  /\ NoDup (queue st)
  /\ (length (queue st) <= maxLen)%nat.

(** A series of cache misses: each dataset is stored by [cacheData] under a
    key that is not cached when its turn comes; [None] when one of the keys
    is cached at its turn, so that the handler would not call [cacheData]. *)
Fixpoint cacheMisses (ins : list (string * list Submission))
    (st : ServerState) : option ServerState :=
  match ins with
  | [] => Some st
  | (key, responses) :: ins' =>
      if map_has (cache st) key then None
      else cacheMisses ins' (cacheData key responses st)
  end.


(** The clause [c] with another condition, on the same question and with
    the same value. *)
Definition withCondition (kind : ConditionKind) (c : FilterClauseType)
  : FilterClauseType :=
  {| filter_id := filter_id c; filter_condition := kind;
     filter_value := filter_value c |}.

(** A value that is not the number NaN. *)
Definition notNaN (v : JsValue) : Prop := v <> VNum NaN.

(** Two values of one type: two numbers or two strings. *)
Definition sameType (x y : JsValue) : Prop :=
  match x, y with
  | VNum _, VNum _ => True
  | VStr _, VStr _ => True
  | _, _ => False
  end.

(** The [responses] of a payload; an error payload has none. *)
Definition payloadResponses (p : Payload) : list Submission :=
  match p with
  | Page responses _ _ => responses
  | Error _ => []
  end.

(** The request [req] asked again with the given offset and limit. *)
Definition withWindow (o l : Z) (req : Request) : Request :=
  {| formId := formId req; params := params req; filters := filters req;
     offset := Some o; limit := Some (Integer l) |}.

(** ** Reading a cache key back *)

(** The character a two-character escape sequence stands for, given its
    second character. *)
Definition unescapeSimple (e : ascii) : option ascii :=
  let n := codeUnit e in
  if n =? 98 then Some (ascii_of_nat 8)
  else if n =? 116 then Some (ascii_of_nat 9)
  else if n =? 110 then Some (ascii_of_nat 10)
  else if n =? 102 then Some (ascii_of_nat 12)
  else if n =? 114 then Some (ascii_of_nat 13)
  else if n =? 34 then Some quoteChar
  else if n =? 92 then Some backslash
  else None.

(** Reads the body of a JSON string up to its closing quote: the string it
    denotes and the text after the quote. *)
Fixpoint readString (s : string) : option (string * string) :=
  match s with
  | EmptyString => None
  | String c s1 =>
      if Ascii.eqb c quoteChar then Some (EmptyString, s1)
      else if Ascii.eqb c backslash then
        match s1 with
        | EmptyString => None
        | String e s2 =>
            if codeUnit e =? 117 then
              match s2 with
              | String h1 (String h2 (String h3 (String h4 s3))) =>
                  match digitValue 16 h1, digitValue 16 h2,
                        digitValue 16 h3, digitValue 16 h4 with
                  | Some 0, Some 0, Some d3, Some d4 =>
                      match readString s3 with
                      | Some (body, rest) =>
                          Some (String (ascii_of_nat (Z.to_nat (16 * d3 + d4)))
                                       body, rest)
                      | None => None
                      end
                  | _, _, _, _ => None
                  end
              | _ => None
              end
            else
              match unescapeSimple e, readString s2 with
              | Some d, Some (body, rest) => Some (String d body, rest)
              | _, _ => None
              end
        end
      else
        match readString s1 with
        | Some (body, rest) => Some (String c body, rest)
        | None => None
        end
  end.

(** The text after the prefix [p] of [s], if [s] starts with [p]. *)
Fixpoint dropPrefix (p s : string) : option string :=
  match p, s with
  | EmptyString, _ => Some s
  | String c p', String d s' =>
      if Ascii.eqb c d then dropPrefix p' s' else None
  | String _ _, EmptyString => None
  end.

(** The text of a key up to the body of the value of [formId]. *)
Definition keyOpening : string :=
  ("{" ++ QuoteJSONString "formId" ++ ":" ++ String quoteChar EmptyString)%string.

(** The text of a further member up to the body of its value. *)
Definition memberPrefix (name : string) : string :=
  ("," ++ QuoteJSONString name ++ ":" ++ String quoteChar EmptyString)%string.

(** The text of the member [name] followed by [rest]: nothing but [rest]
    when the member has no value. *)
Definition memberText (name : string) (v : option string) (rest : string)
  : string :=
  match v with
  | Some s =>
      (memberPrefix name ++ escapeString s ++ String quoteChar rest)%string
  | None => rest
  end.

(** The text of the key of a form and its parameters, member by member. *)
Definition keyText (form : string) (p : Params) : string :=
  (keyOpening ++ escapeString form
   ++ String quoteChar
        (memberText "afterDate" (afterDate p)
           (memberText "beforeDate" (beforeDate p)
              (memberText "status" (status p)
                 (memberText "includeEditLink" (includeEditLink p)
                    (memberText "sort" (sort p) "}"))))))%string.

(** Reads the member [name] of a key if the text goes on with it: its value
    and the text after it; the text as it is when it goes on otherwise. *)
Definition readMember (name : string) (s : string)
  : option (option string * string) :=
  match dropPrefix (memberPrefix name) s with
  | Some s1 =>
      match readString s1 with
      | Some (v, rest) => Some (Some v, rest)
      | None => None
      end
  | None => Some (None, s)
  end.

(** Reads a key back into the form and the parameters it was made of. *)
Definition readKey (key : string) : option (string * Params) :=
  match dropPrefix keyOpening key with
  | None => None
  | Some s0 =>
      match readString s0 with
      | None => None
      | Some (form, s1) =>
          match readMember "afterDate" s1 with
          | None => None
          | Some (a, s2) =>
              match readMember "beforeDate" s2 with
              | None => None
              | Some (b, s3) =>
                  match readMember "status" s3 with
                  | None => None
                  | Some (st, s4) =>
                      match readMember "includeEditLink" s4 with
                      | None => None
                      | Some (e, s5) =>
                          match readMember "sort" s5 with
                          | None => None
                          | Some (so, s6) =>
                              if String.eqb s6 "}" then
                                Some (form,
                                      {| afterDate := a; beforeDate := b;
                                         status := st; includeEditLink := e;
                                         sort := so |})
                              else None
                          end
                      end
                  end
              end
          end
      end
  end.

(** ** The validator of [filters] (lines 38-63) *)

Local Unset Elimination Schemes.

(** What [JSON.parse] returns. *)
Inductive Json : Type :=
  | JNull
  | JBool (b : bool)
  | JNumber (n : JsNumber)
  | JString (s : string)
  | JArray (items : list Json)
  | JObject (members : list (string * Json)).

Local Set Elimination Schemes.

(** The value of the member [name] of a parsed object: of several members
    with one name [JSON.parse] keeps the last; [None] is [undefined]. *)
Definition lastMember (name : string) (members : list (string * Json))
  : option Json :=
  fold_left (fun found m => if String.eqb (fst m) name then Some (snd m)
                            else found)
            members None.

(** Reading the property [name] of a parsed value, for the names [id],
    [condition] and [value]: reading a property of [null] throws (the outer
    [None]); numbers, booleans, strings and arrays have no such property. *)
Definition getProperty (o : Json) (name : string) : option (option Json) :=
  match o with
  | JNull => None
  | JObject members => Some (lastMember name members)
  | _ => Some None
  end.

(** What the validator throws: an error made by [showError], or the
    TypeError of the host or of [assertString] of validator.js. *)
Inductive Thrown : Type :=
  | InvalidField (message : string)
  | TypeError.

(** [showError]: the message of the error it makes. *)
Definition showError (field : string) : string :=
  (field ++ " is invalid")%string.

Definition conditionNames : list string :=
  ["equals"; "does_not_equal"; "greater_than"; "less_than"].

(** [typeof v] is ['string'] or ['number']. *)
Definition isStringOrNumber (v : option Json) : bool :=
  match v with
  | Some (JString _) => true
  | Some (JNumber _) => true
  | _ => false
  end.

(** The callback of [filterClauses.forEach]: what it throws on one clause,
    [None] when it returns.  [validator.isEmpty] and [validator.isIn] throw
    a TypeError unless their argument is a string; [isEmpty] tests the
    length against 0 and [isIn] the membership in the list. *)
Definition validateClause (filter : Json) : option Thrown :=
  match getProperty filter "id" with
  | None => Some TypeError
  | Some (Some (JString id)) =>
      if (String.length id =? 0)%nat then Some (InvalidField (showError "id"))
      else
        match getProperty filter "condition" with
        | Some (Some (JString condition)) =>
            if existsb (String.eqb condition) conditionNames then
              if isStringOrNumber (match getProperty filter "value" with
                                   | Some v => v
                                   | None => None
                                   end)
              then None
              else Some (InvalidField (showError "value"))
            else Some (InvalidField (showError "condition"))
        | _ => Some TypeError
        end
  | Some _ => Some TypeError
  end.

(** [forEach] over the clauses: the first throw ends it. *)
Fixpoint validateClauses (items : list Json) : option Thrown :=
  match items with
  | [] => None
  | filter :: rest =>
      match validateClause filter with
      | Some e => Some e
      | None => validateClauses rest
      end
  end.

(** [validateFilters], given what [JSON.parse(filters)] returned: [None]
    when it returns [true], otherwise what it throws.  Only an array has
    [forEach]. *)
Definition validateFilters (filterClauses : Json) : option Thrown :=
  match filterClauses with
  | JArray items => validateClauses items
  | _ => Some TypeError
  end.

(** *** The clauses as the filter block reads them *)

Definition conditionOfString (name : string) : option ConditionKind :=
  if String.eqb name "equals" then Some equals
  else if String.eqb name "does_not_equal" then Some does_not_equal
  else if String.eqb name "greater_than" then Some greater_than
  else if String.eqb name "less_than" then Some less_than
  else None.

Definition conditionName (kind : ConditionKind) : string :=
  match kind with
  | equals => "equals"
  | does_not_equal => "does_not_equal"
  | greater_than => "greater_than"
  | less_than => "less_than"
  end.

Definition valueOfJson (v : Json) : option JsValue :=
  match v with
  | JNumber n => Some (VNum n)
  | JString s => Some (VStr s)
  | _ => None
  end.

Definition jsonOfValue (v : JsValue) : Json :=
  match v with
  | VNum n => JNumber n
  | VStr s => JString s
  end.

(** The clause a parsed object stands for in the filter block, which reads
    its [id], [condition] and [value]. *)
Definition clauseOfJson (filter : Json) : option FilterClauseType :=
  match filter with
  | JObject members =>
      match lastMember "id" members, lastMember "condition" members,
            lastMember "value" members with
      | Some (JString id), Some (JString condition), Some value =>
          match conditionOfString condition, valueOfJson value with
          | Some kind, Some v =>
              Some {| filter_id := id; filter_condition := kind;
                      filter_value := v |}
          | _, _ => None
          end
      | _, _, _ => None
      end
  | _ => None
  end.

Definition filtersOfJson (filterClauses : Json) : option ResponseFiltersType :=
  match filterClauses with
  | JArray items => mapM clauseOfJson items
  | _ => None
  end.

(** The JSON value of a Filter Set. *)
Definition jsonOfClause (c : FilterClauseType) : Json :=
  JObject [ ("id", JString (filter_id c));
            ("condition", JString (conditionName (filter_condition c)));
            ("value", jsonOfValue (filter_value c)) ].

Definition jsonOfFilters (fs : ResponseFiltersType) : Json :=
  JArray (map jsonOfClause fs).

(** * Proofs *)

(** ** The JS Map model *)

Section JsMapFacts.
Context {V : Type}.
Implicit Types (m : list (string * V)) (k : string) (v : V).

Lemma map_has_keys m k : map_has m k = true <-> k ∈ map_keys m.
Proof.
  unfold map_has, map_keys.
  induction m as [|[k' v'] m IH]; simpl.
  - split; [discriminate | intros H; inversion H].
  - destruct (String.eqb_spec k' k) as [->|Hne].
    + split; [intros _; left | reflexivity].
    + rewrite IH. split; [now right |].
      intros H. apply elem_of_cons in H as [H|H]; congruence.
Qed.

Lemma map_has_false_keys m k : map_has m k = false <-> k ∉ map_keys m.
Proof.
  rewrite <- map_has_keys. destruct (map_has m k); split; congruence.
Qed.

Lemma map_keys_set m k v :
  map_keys (map_set m k v)
  = if map_has m k then map_keys m else (map_keys m ++ [k])%list.
Proof.
  unfold map_has, map_keys.
  induction m as [|[k' v'] m IH]; simpl; [reflexivity|].
  destruct (String.eqb_spec k' k) as [->|Hne]; simpl; [reflexivity|].
  rewrite IH. now destruct (map_get m k).
Qed.

Lemma map_get_set m k v : map_get (map_set m k v) k = Some v.
Proof.
  induction m as [|[k' v'] m IH]; simpl.
  - now rewrite String.eqb_refl.
  - destruct (String.eqb_spec k' k) as [->|Hne]; simpl.
    + now rewrite String.eqb_refl.
    + destruct (String.eqb_spec k' k); [contradiction | exact IH].
Qed.

Lemma map_has_set m k v : map_has (map_set m k v) k = true.
Proof. unfold map_has. now rewrite map_get_set. Qed.

Lemma map_keys_delete_sublist m k :
  map_keys (map_delete m k) `sublist_of` map_keys m.
Proof.
  unfold map_keys.
  induction m as [|[k' v'] m IH]; simpl; [constructor|].
  destruct (String.eqb k' k); simpl.
  - now apply sublist_cons.
  - now apply sublist_skip.
Qed.

(** Deleting the key of the first entry removes exactly that entry. *)
Lemma map_delete_head m k v : map_delete ((k, v) :: m) k = m.
Proof. simpl. now rewrite String.eqb_refl. Qed.

Lemma map_delete_absent m k : k ∉ map_keys m -> map_delete m k = m.
Proof.
  unfold map_keys.
  induction m as [|[k' v'] m IH]; simpl; intros Hk; [reflexivity|].
  apply not_elem_of_cons in Hk as [Hne Hk].
  destruct (String.eqb_spec k' k); [congruence|].
  now rewrite IH.
Qed.

Lemma map_has_delete m k :
  NoDup (map_keys m) -> map_has (map_delete m k) k = false.
Proof.
  unfold map_keys. intros Hnd. apply map_has_false_keys. unfold map_keys.
  induction m as [|[k' v'] m IH]; simpl in *; [apply not_elem_of_nil|].
  apply NoDup_cons in Hnd as [Hk' Hnd].
  destruct (String.eqb_spec k' k) as [->|Hne]; [exact Hk'|].
  simpl. apply not_elem_of_cons. split; [congruence | now apply IH].
Qed.

Lemma map_keys_NoDup_set m k v :
  NoDup (map_keys m) -> NoDup (map_keys (map_set m k v)).
Proof.
  intros Hnd. rewrite map_keys_set.
  destruct (map_has m k) eqn:Hk; [exact Hnd|].
  apply NoDup_app. split; [exact Hnd|]. split.
  - intros x Hx Hx'. apply list_elem_of_singleton in Hx'. subst x.
    now apply map_has_false_keys in Hk.
  - apply NoDup_singleton.
Qed.
End JsMapFacts.

(** A sublist as long as the whole list is the list. *)
Lemma sublist_full {A : Type} (l k : list A) :
  l `sublist_of` k -> (length k <= length l)%nat -> l = k.
Proof.
  induction 1 as [|x l k Hs IH|x l k Hs IH]; simpl; intros Hlen.
  - reflexivity.
  - f_equal. apply IH. lia.
  - apply sublist_length in Hs. lia.
Qed.

(** ** The cache and its queue *)

Lemma cacheInv_initial : cacheInv initialState.
Proof.
  unfold cacheInv, initialState, maxLen; simpl.
  split; [constructor|]. split; [constructor | lia].
Qed.

Lemma cacheInv_cacheData key responses st :
  cacheInv st -> cacheInv (cacheData key responses st).
Proof.
  intros (Hnd & Hsub & Hlen). unfold cacheData.
  (* the state after the optional eviction keeps the invariant, with room *)
  set (st1 := if Nat.eqb (length (queue st)) maxLen then _ else st).
  assert (H1 : NoDup (map_keys (cache st1))
                /\ map_keys (cache st1) `sublist_of` queue st1
                /\ (length (queue st1) < maxLen)%nat).
  { subst st1. destruct (Nat.eqb_spec (length (queue st)) maxLen) as [Hfull|Hroom].
    - destruct (queue st) as [|oldest rest] eqn:Hq; [discriminate Hfull|].
      simpl in *. split; [|split; [|lia]].
      + eapply sublist_NoDup; [exact Hnd | apply map_keys_delete_sublist].
      + destruct (cache st) as [|[k v] m] eqn:Hc; [apply sublist_nil_l|].
        destruct (String.eqb_spec k oldest) as [->|Hne].
        * rewrite map_delete_head. simpl in Hsub.
          apply sublist_cons_r in Hsub as [Hsub|(l' & Heq & Hsub)].
          -- apply sublist_cons_l in Hsub as (k1 & k2 & -> & Hsub).
             now apply sublist_inserts_l, sublist_cons.
          -- now injection Heq as <-.
        * simpl in Hsub.
          apply sublist_cons_r in Hsub as [Hsub|(l' & Heq & Hsub)];
            [|congruence].
          etransitivity; [apply map_keys_delete_sublist | exact Hsub].
    - repeat split; try assumption. lia. }
  destruct H1 as (Hnd1 & Hsub1 & Hlen1). unfold cacheInv; simpl.
  split; [now apply map_keys_NoDup_set|]. split.
  - rewrite map_keys_set. destruct (map_has (cache st1) key).
    + now apply sublist_inserts_r.
    + now apply sublist_app.
  - rewrite length_app; simpl. lia.
Qed.

Lemma reachable_cacheInv st : reachable st -> cacheInv st.
Proof.
  induction 1; [apply cacheInv_initial | now apply cacheInv_cacheData].
Qed.

(** When the cache holds [maxLen] entries, the queue lists exactly its keys,
    in insertion order. *)
Lemma cacheInv_full st :
  cacheInv st -> length (cache st) = maxLen ->
  queue st = map_keys (cache st).
Proof.
  intros (_ & Hsub & Hlen) Hfull. symmetry.
  apply sublist_full; [exact Hsub|].
  unfold map_keys. rewrite length_map. lia.
Qed.

Lemma cacheInv_size st : cacheInv st -> (length (cache st) <= maxLen)%nat.
Proof.
  intros (_ & Hsub & Hlen). apply sublist_length in Hsub.
  unfold map_keys in Hsub. rewrite length_map in Hsub. lia.
Qed.

Lemma reachable_cacheAll keys st : reachable st -> reachable (cacheAll keys st).
Proof.
  unfold cacheAll. revert st.
  induction keys as [|key keys IH]; simpl; intros st Hst; [exact Hst|].
  apply IH. now constructor.
Qed.

Lemma map_has_set_ne {V : Type} (m : list (string * V)) k k' v :
  k <> k' -> map_has (map_set m k v) k' = map_has m k'.
Proof.
  intros Hne. unfold map_has.
  induction m as [|[k0 v0] m IH]; simpl.
  - destruct (String.eqb_spec k k'); [contradiction | reflexivity].
  - destruct (String.eqb_spec k0 k) as [->|Hk]; simpl.
    + destruct (String.eqb_spec k k'); [contradiction | reflexivity].
    + destruct (String.eqb_spec k0 k'); [reflexivity | exact IH].
Qed.

(** A request whose key is cached is answered from the cache and leaves
    the state as it is. *)
Lemma handler_hit fuel api req st :
  map_has (cache st) (cacheKey req) = true ->
  exists cached,
    map_get (cache st) (cacheKey req) = Some cached
    /\ handler fuel api req st = Some (respond req cached, st).
Proof.
  unfold handler, map_has. intros Hhas.
  destruct (map_get (cache st) (cacheKey req)) as [cached|] eqn:Hget;
    [|discriminate].
  exists cached. split; reflexivity.
Qed.

(** Every run of the handler takes a reachable state to a reachable one. *)
Lemma handler_reachable fuel api req st payload st' :
  reachable st ->
  handler fuel api req st = Some (payload, st') ->
  reachable st'.
Proof.
  intros Hst. unfold handler.
  destruct (map_has (cache st) (cacheKey req)).
  - destruct (map_get (cache st) (cacheKey req)); [|discriminate].
    now intros [= _ <-].
  - destruct (fst (fetchAll fuel (api (formId req) (params req))));
      try discriminate.
    + intros [= _ <-]. now constructor.
    + now intros [= _ <-].
Qed.

(** C4: the cache never holds more than [maxLen] = 10 entries; an insertion
    into a cache that holds 10 entries first removes exactly one entry, the
    first in the insertion order of the entries held, and then stores the
    new one; below capacity nothing is removed; a request answered from the
    cache leaves cache and queue untouched. *)
Theorem cache_fifo_bounded (st : ServerState) (Hreach : reachable st) :
  maxLen = 10%nat
  /\ (length (cache st) <= maxLen)%nat
  /\ (forall key responses,
        length (cache st) = maxLen ->
        exists oldest data rest,
          cache st = (oldest, data) :: rest
          /\ cache (cacheData key responses st) = map_set rest key responses
          /\ queue (cacheData key responses st)
             = (map_keys rest ++ [key])%list)
  /\ (forall key responses,
        (length (queue st) < maxLen)%nat ->
        cache (cacheData key responses st)
        = map_set (cache st) key responses)
  /\ (forall fuel api req,
        map_has (cache st) (cacheKey req) = true ->
        exists payload, handler fuel api req st = Some (payload, st)).
Proof.
  pose proof (reachable_cacheInv st Hreach) as Hinv.
  split; [reflexivity|]. split; [now apply cacheInv_size|].
  split; [|split].
  - intros key responses Hfull.
    pose proof (cacheInv_full st Hinv Hfull) as Hq.
    destruct (cache st) as [|[oldest data] rest] eqn:Hc; [discriminate Hfull|].
    exists oldest, data, rest. split; [reflexivity|].
    unfold cacheData. rewrite Hq, Hc. simpl map_keys.
    assert (Hlen : Nat.eqb (length (oldest :: map fst rest)) maxLen = true).
    { apply Nat.eqb_eq. simpl in *. rewrite length_map. exact Hfull. }
    change (map fst rest) with (map_keys rest) in Hlen.
    rewrite Hlen. simpl. rewrite String.eqb_refl. now split.
  - intros key responses Hroom. unfold cacheData.
    destruct (Nat.eqb_spec (length (queue st)) maxLen); [lia | reflexivity].
  - intros fuel api req Hhas.
    destruct (handler_hit fuel api req st Hhas) as (cached & _ & Hrun).
    now exists (respond req cached).
Qed.

Lemma cache_fifo_bounded_witness :
  reachable fullState
  /\ length (cache fullState) = maxLen
  /\ exists oldest data rest,
       cache fullState = (oldest, data) :: rest
       /\ cache (cacheData "k10" [] fullState) = map_set rest "k10" []
       /\ queue (cacheData "k10" [] fullState)
          = (map_keys rest ++ ["k10"])%list.
Proof.
  assert (Hreach : reachable fullState)
    by (apply reachable_cacheAll; constructor).
  split; [exact Hreach|]. split; [reflexivity|].
  apply (cache_fifo_bounded fullState Hreach). reflexivity.
Defined.

(** C10: in every reachable state each key of the cache occurs in the
    queue and the queue holds at most 10 keys, hence the cache at most 10
    entries; calling [cacheData] with a key that is already cached gives
    that key one more slot of the queue, and when the first slot of a full
    queue is evicted its key leaves the cache, whether or not a later slot
    still holds it. *)
Theorem queue_covers_cache (st : ServerState) (Hreach : reachable st) :
  (forall key, map_has (cache st) key = true -> key ∈ queue st)
  /\ (length (queue st) <= 10)%nat
  /\ (length (cache st) <= 10)%nat
  /\ (forall key responses,
        map_has (cache st) key = true ->
        (length (queue st) < maxLen)%nat ->
        key ∈ queue st
        /\ queue (cacheData key responses st) = (queue st ++ [key])%list)
  /\ (forall key responses oldest rest,
        queue st = oldest :: rest ->
        length (queue st) = maxLen ->
        key <> oldest ->
        map_has (cache (cacheData key responses st)) oldest = false).
Proof.
  pose proof (reachable_cacheInv st Hreach) as Hinv.
  pose proof (cacheInv_size st Hinv) as Hsize.
  destruct Hinv as (Hnd & Hsub & Hlen).
  assert (Hin : forall key, map_has (cache st) key = true -> key ∈ queue st).
  { intros key Hkey. apply map_has_keys in Hkey.
    eapply sublist_subseteq; eassumption. }
  split; [exact Hin|]. split; [exact Hlen|]. split; [exact Hsize|].
  split.
  - intros key responses Hkey Hroom. split; [now apply Hin|].
    unfold cacheData.
    destruct (Nat.eqb_spec (length (queue st)) maxLen); [lia | reflexivity].
  - intros key responses oldest rest Hq Hfull Hne. unfold cacheData.
    rewrite Hq in *. apply Nat.eqb_eq in Hfull. rewrite Hfull. simpl.
    rewrite map_has_set_ne by exact Hne. now apply map_has_delete.
Qed.

Lemma queue_covers_cache_witness :
  reachable duplicateState
  /\ queue duplicateState
     = ["k0"; "k0"; "k1"; "k2"; "k3"; "k4"; "k5"; "k6"; "k7"; "k8"]
  /\ map_has (cache (cacheData "k9" [] duplicateState)) "k0" = false
  /\ "k0" ∈ queue (cacheData "k9" [] duplicateState).
Proof.
  assert (Hreach : reachable duplicateState)
    by (apply reachable_cacheAll; constructor).
  split; [exact Hreach|]. split; [reflexivity|]. split.
  - apply (queue_covers_cache duplicateState Hreach)
      with (rest := ["k0"; "k1"; "k2"; "k3"; "k4"; "k5"; "k6"; "k7"; "k8"]);
      [reflexivity | reflexivity | discriminate].
  - left.
Defined.

(** ** The filter block *)

Lemma collectChecks_flat_map conditions response :
  collectChecks conditions response
  = flat_map
      (fun question =>
         match conditions !! question_id question with
         | Some condition => [evalCondition condition question]
         | None => []
         end)
      (questions response).
Proof.
  unfold collectChecks.
  set (step := fun checks question => _).
  set (one := fun question => _).
  assert (H : forall qs acc, fold_left step qs acc = (acc ++ flat_map one qs)%list).
  { induction qs as [|q qs IH]; intros acc; simpl.
    - now rewrite app_nil_r.
    - rewrite IH. subst step one. simpl.
      destruct (conditions !! question_id q); simpl.
      + now rewrite <- app_assoc.
      + reflexivity. }
  apply H.
Qed.

Lemma findIndex_ge {A : Type} (p : A -> bool) l : -1 <= findIndex p l.
Proof.
  induction l as [|x l IH]; simpl; [lia|].
  destruct (p x); [lia|]. cbv zeta.
  destruct (findIndex p l =? -1); lia.
Qed.

(** [findIndex] answers -1 exactly when no element satisfies the predicate. *)
Lemma findIndex_none {A : Type} (p : A -> bool) l :
  (findIndex p l =? -1) = forallb (fun x => negb (p x)) l.
Proof.
  induction l as [|x l IH]; simpl; [reflexivity|].
  destruct (p x); simpl; [reflexivity|]. cbv zeta.
  rewrite <- IH. pose proof (findIndex_ge p l).
  destruct (findIndex p l =? -1) eqn:E; [reflexivity|].
  apply Z.eqb_neq in E. apply Z.eqb_neq. lia.
Qed.

(** A record is kept exactly when every check pushed for it is [true]. *)
Lemma keepResponse_spec conditions response :
  keepResponse conditions response = true
  <-> forall q c,
        q ∈ questions response ->
        conditions !! question_id q = Some c ->
        evalCondition c q = true.
Proof.
  unfold keepResponse. rewrite findIndex_none, collectChecks_flat_map.
  rewrite forallb_forall. split.
  - intros H q c Hq Hc.
    specialize (H (evalCondition c q)).
    rewrite negb_involutive in H. apply H.
    apply in_flat_map. exists q. split; [now apply list_elem_of_In|].
    rewrite Hc. now left.
  - intros H b Hb. rewrite negb_involutive.
    apply in_flat_map in Hb as (q & Hq & Hb).
    destruct (conditions !! question_id q) as [c|] eqn:Hc; [|contradiction].
    destruct Hb as [<-|[]]. apply (H q c); [now apply list_elem_of_In | exact Hc].
Qed.

Lemma buildConditions_lookup fs k :
  buildConditions fs !! k = lastClause k fs.
Proof.
  unfold buildConditions.
  set (step := fun conditions filter => _).
  assert (H : forall fs (m : gmap string FilterClauseType),
             fold_left step fs m !! k
             = match lastClause k fs with Some c => Some c | None => m !! k end).
  { clear fs. induction fs as [|f fs IH]; intros m; simpl; [reflexivity|].
    rewrite IH. destruct (lastClause k fs); [reflexivity|].
    subst step. simpl.
    destruct (String.eqb_spec (filter_id f) k) as [<-|Hne].
    - apply lookup_insert_eq.
    - now apply lookup_insert_ne. }
  rewrite H, lookup_empty. now destruct (lastClause k fs).
Qed.

Lemma lastClause_Some k fs c :
  lastClause k fs = Some c -> c ∈ fs /\ filter_id c = k.
Proof.
  induction fs as [|f fs IH]; simpl; [discriminate|].
  destruct (lastClause k fs) as [c'|].
  - intros [= <-]. destruct (IH eq_refl) as [Hin Hid].
    split; [now right | exact Hid].
  - destruct (String.eqb_spec (filter_id f) k); [|discriminate].
    intros [= <-]. split; [left | assumption].
Qed.

(** When no two clauses share an id, every clause is the one stored under
    its id. *)
Lemma lastClause_distinct fs c :
  NoDup (map filter_id fs) -> c ∈ fs -> lastClause (filter_id c) fs = Some c.
Proof.
  induction fs as [|f fs IH]; simpl; intros Hnd Hin; [inversion Hin|].
  apply NoDup_cons in Hnd as [Hf Hnd].
  apply elem_of_cons in Hin as [->|Hin].
  - destruct (lastClause (filter_id f) fs) as [c'|] eqn:Hc'.
    + apply lastClause_Some in Hc' as [Hin' Hid]. exfalso. apply Hf.
      rewrite <- Hid. apply list_elem_of_fmap. now exists c'.
    + now rewrite String.eqb_refl.
  - now rewrite (IH Hnd Hin).
Qed.

(** For a Filter Set whose clauses have pairwise distinct ids, the block
    keeps a record exactly when every clause holds for it. *)
Lemma keepResponse_distinct_ids fs response :
  NoDup (map filter_id fs) ->
  keepResponse (buildConditions fs) response = true
  <-> forall c, c ∈ fs -> clauseHolds c response.
Proof.
  intros Hnd. rewrite keepResponse_spec. unfold clauseHolds. split.
  - intros H c Hc q Hq Hid. apply (H q c Hq).
    rewrite buildConditions_lookup, Hid. now apply lastClause_distinct.
  - intros H q c Hq Hc. rewrite buildConditions_lookup in Hc.
    apply lastClause_Some in Hc as [Hin Hid]. now apply (H c Hin q Hq).
Qed.

Lemma filter_sublist {A : Type} (p : A -> bool) (l : list A) :
  List.filter p l `sublist_of` l.
Proof.
  induction l as [|x l IH]; simpl; [constructor|].
  destruct (p x); [now apply sublist_skip | now apply sublist_cons].
Qed.

Lemma filter_all {A : Type} (p : A -> bool) (l : list A) :
  (forall x, p x = true) -> List.filter p l = l.
Proof.
  intros H. induction l as [|x l IH]; simpl; [reflexivity|].
  now rewrite H, IH.
Qed.

(** C8: the filtered result is a subsequence of the dataset, and an absent
    or empty Filter Set leaves the dataset as it is. *)
Theorem filterResponses_subsequence_identity
    (D : list Submission) (F : option ResponseFiltersType) :
  filterResponses F D `sublist_of` D
  /\ filterResponses None D = D
  /\ filterResponses (Some []) D = D.
Proof.
  split; [|split].
  - destruct F as [fs|]; simpl; [apply filter_sublist | reflexivity].
  - reflexivity.
  - simpl. apply filter_all. intros r.
    apply keepResponse_spec. intros q c _ Hc.
    rewrite buildConditions_lookup in Hc. discriminate Hc.
Qed.

(** C2, at the failing input: with two clauses on the question q1, the
    block keeps a record that the first clause, [q1 equals 1], rejects;
    only the last clause stored under an id is ever evaluated. *)
Theorem duplicate_id_clause_ignored :
  filterResponses (Some twoClauses) [answersTwo] = [answersTwo]
  /\ (exists c, c ∈ twoClauses /\ ~ clauseHolds c answersTwo)
  /\ (forall fs r,
        keepResponse (buildConditions fs) r = true
        <-> forall q c, q ∈ questions r ->
                        lastClause (question_id q) fs = Some c ->
                        evalCondition c q = true).
Proof.
  split; [|split].
  - assert (H : keepResponse (buildConditions twoClauses) answersTwo = true).
    { apply keepResponse_spec. intros q c Hq Hc.
      rewrite buildConditions_lookup in Hc.
      apply list_elem_of_singleton in Hq. subst q.
      simpl in Hc. injection Hc as <-. reflexivity. }
    simpl. now rewrite H.
  - exists {| filter_id := "q1"; filter_condition := equals;
              filter_value := num 1 |}.
    split; [left|].
    intros H. specialize (H _ (list_elem_of_here _ _) eq_refl). discriminate H.
  - intros fs r. rewrite keepResponse_spec.
    split; intros H q c Hq Hc; apply (H q c Hq);
      [now rewrite buildConditions_lookup | now rewrite <- buildConditions_lookup].
Qed.

(** ** Comparison clauses *)

Lemma Qltb_lt (a b : Q) : Qltb a b = true <-> (a < b)%Q.
Proof. unfold Qltb, Qlt. apply Z.ltb_lt. Qed.

Lemma codeUnit_inj c d : codeUnit c = codeUnit d -> c = d.
Proof.
  unfold codeUnit. intros H. apply N2Z.inj in H.
  rewrite <- (ascii_N_embedding c), <- (ascii_N_embedding d). now rewrite H.
Qed.

(** [String_lessThan] decides the lexicographic order. *)
Lemma String_lessThan_lex s t : String_lessThan s t = true <-> lex_lt s t.
Proof.
  revert t. induction s as [|c s IH]; intros [|d t]; simpl.
  - split; [discriminate | inversion 1].
  - split; [constructor | reflexivity].
  - split; [discriminate | inversion 1].
  - destruct (Z.eqb (codeUnit c) (codeUnit d)) eqn:E.
    + apply Z.eqb_eq in E. pose proof (codeUnit_inj c d E) as ->.
      rewrite IH. split; [now constructor|].
      inversion 1; subst; [lia | assumption].
    + apply Z.eqb_neq in E. rewrite Z.ltb_lt. split; [now constructor|].
      inversion 1; subst; [assumption | congruence].
Qed.

Lemma evalCondition_comparison c q :
  filter_condition c = greater_than \/ filter_condition c = less_than ->
  evalCondition c q
  = js_lt (fst (comparisonOperands c q)) (snd (comparisonOperands c q)).
Proof.
  unfold evalCondition, comparisonOperands, js_lt, js_gt.
  now intros [-> | ->].
Qed.

(** *** The conversion of a string to a number *)

Lemma Qred_inject_Z (z : Z) : Qred (inject_Z z) = inject_Z z.
Proof.
  unfold inject_Z. rewrite Qred_identity; [reflexivity|].
  simpl. apply Z.gcd_1_r.
Qed.

Lemma Qred_scaled (z k : Z) :
  0 < k -> Qred (z * k # Z.to_pos k) = inject_Z z.
Proof.
  intros Hk. rewrite <- Qred_inject_Z. apply Qred_complete.
  unfold Qeq, inject_Z. simpl. rewrite Z2Pos.id by exact Hk. lia.
Qed.

(** Rounding to binary64 leaves the integers up to 2 ^ 53 as they are. *)
Lemma roundToBinary64_safe_integer (z : Z) :
  0 <= z <= 2 ^ 53 -> roundToBinary64 (inject_Z z) = Fin (inject_Z z).
Proof.
  intros Hz. unfold roundToBinary64, inject_Z. simpl Qnum. simpl Qden.
  destruct z as [|p|p]; [reflexivity | | lia].
  set (z := Z.pos p) in *.
  assert (Hpos : 0 < z) by (unfold z; lia).
  pose proof (Z.log2_spec z Hpos) as Hlog.
  pose proof (Z.log2_nonneg z) as Hnn.
  assert (Hle : Z.log2 z <= 53).
  { change 53 with (Z.log2 (2 ^ 53)). apply Z.log2_le_mono. lia. }
  unfold roundPositive. change (Z.log2 1) with 0.
  rewrite Z.sub_0_r, Z.mul_1_r.
  set (L := Z.log2 z) in *.
  destruct (Z.leb_spec 0 L); [|lia].
  destruct (Z.leb_spec (2 ^ L) z); [|lia].
  rewrite Z.max_l by lia.
  destruct (Z.leb_spec 0 (L - 52)) as [Hu|Hu].
  - rewrite Z.mul_1_l.
    assert (HL : L = 52 \/ L = 53) by lia.
    destruct HL as [HL|HL]; rewrite HL in *.
    + change (2 ^ (52 - 52)) with 1. rewrite Z.div_1_r, Z.mod_1_r. simpl.
      rewrite Z.mul_1_r.
      destruct (Z.leb_spec (2 ^ 1024) z) as [Hbig|_]; [|reflexivity].
      assert (2 ^ 53 < 2 ^ 1024) by (apply Z.pow_lt_mono_r; lia). lia.
    + assert (Hz53 : z = 2 ^ 53) by lia. rewrite Hz53. reflexivity.
  - rewrite Z.div_1_r, Z.mod_1_r.
    change (2 * 0 <? 1) with true. cbv iota.
    replace (- (L - 52)) with (52 - L) by lia.
    rewrite Qred_scaled; [reflexivity|]. apply Z.pow_pos_nonneg; lia.
Qed.

Ltac digit_cases d H :=
  let E := fresh in
  assert (E : d = 0 \/ d = 1 \/ d = 2 \/ d = 3 \/ d = 4 \/ d = 5 \/ d = 6
              \/ d = 7 \/ d = 8 \/ d = 9) by (unfold isDecimalDigit in H; lia);
  repeat (destruct E as [E|E]; [subst d|]); [..|subst d].

Lemma digitValue_digitChar (d : Z) :
  isDecimalDigit d -> digitValue 10 (digitChar d) = Some d.
Proof. intros H. digit_cases d H; reflexivity. Qed.

Lemma digitChar_plain (d : Z) :
  isDecimalDigit d ->
  isStrWhiteSpaceChar (digitChar d) = false
  /\ Ascii.eqb (digitChar d) "I" = false
  /\ forall ch, In ch ["x"; "X"; "o"; "O"; "b"; "B"; "-"; "+"] ->
                isChar (digitChar d) ch = false.
Proof.
  intros H. digit_cases d H;
    (split; [reflexivity|]; split; [reflexivity|]);
    intros ch Hch; simpl in Hch;
    repeat (destruct Hch as [<-|Hch]; [reflexivity|]); contradiction.
Qed.

Lemma dropWhiteSpace_plain (l : list ascii) :
  Forall (fun c => isStrWhiteSpaceChar c = false) l -> dropWhiteSpace l = l.
Proof. intros [|c l' Hc _]; simpl; [reflexivity | now rewrite Hc]. Qed.

Lemma trimWhiteSpace_plain (l : list ascii) :
  Forall (fun c => isStrWhiteSpaceChar c = false) l -> trimWhiteSpace l = l.
Proof.
  intros H. unfold trimWhiteSpace.
  rewrite (dropWhiteSpace_plain l H), dropWhiteSpace_plain.
  - apply rev_involutive.
  - apply Forall_forall. intros c Hc. apply list_elem_of_In, in_rev in Hc.
    rewrite Forall_forall in H. apply H. now apply list_elem_of_In.
Qed.

Lemma spanDigits_digits (ds : list Z) :
  Forall isDecimalDigit ds -> spanDigits 10 (map digitChar ds) = (ds, []).
Proof.
  induction 1 as [|d ds Hd _ IH]; simpl; [reflexivity|].
  now rewrite (digitValue_digitChar d Hd), IH.
Qed.

Lemma parseNonDecimal_digits (ds : list Z) :
  Forall isDecimalDigit ds -> parseNonDecimal (map digitChar ds) = None.
Proof.
  intros H. destruct H as [|d1 ds1 H1 H]; [reflexivity|].
  destruct H as [|d2 ds2 H2 H]; [reflexivity|].
  change (map digitChar (d1 :: d2 :: ds2))
    with (digitChar d1 :: digitChar d2 :: map digitChar ds2).
  unfold parseNonDecimal.
  destruct (isChar (digitChar d1) "0"); [|reflexivity].
  destruct (digitChar_plain d2 H2) as (_ & _ & Hch).
  rewrite !Hch by (simpl; tauto). reflexivity.
Qed.

Lemma literalValue_numeral (ds : list Z) :
  ds <> [] -> Forall isDecimalDigit ds ->
  literalValue (decimalNumeral ds) = Fin (inject_Z (digitsValue 10 ds)).
Proof.
  intros Hne Hds. unfold literalValue, decimalNumeral.
  rewrite list_ascii_of_string_of_list_ascii, trimWhiteSpace_plain.
  2:{ apply Forall_forall. intros c Hc. apply list_elem_of_In, in_map_iff in Hc.
      destruct Hc as (d & <- & Hd). rewrite Forall_forall in Hds.
      apply (digitChar_plain d). apply Hds. now apply list_elem_of_In. }
  destruct ds as [|d ds]; [contradiction|].
  pose proof (Forall_inv Hds) as Hd.
  destruct (digitChar_plain d Hd) as (_ & HI & Hch).
  pose proof (parseNonDecimal_digits (d :: ds) Hds) as Hnon.
  pose proof (spanDigits_digits (d :: ds) Hds) as Hspan.
  change (map digitChar (d :: ds)) with (digitChar d :: map digitChar ds) in *.
  cbv iota beta. rewrite Hnon, !Hch by (simpl; tauto).
  unfold parseUnsignedDecimal.
  assert (Hinf : String.eqb
                   (string_of_list_ascii (digitChar d :: map digitChar ds))
                   "Infinity" = false).
  { simpl. now rewrite HI. }
  rewrite Hinf, Hspan. simpl.
  rewrite app_nil_r. f_equal.
  unfold Qmult, inject_Z. simpl. f_equal. lia.
Qed.

(** A decimal numeral of at most 2 ^ 53 converts to the integer it
    denotes. *)
Lemma StringToNumber_numeral (ds : list Z) :
  ds <> [] -> Forall isDecimalDigit ds -> digitsValue 10 ds <= 2 ^ 53 ->
  StringToNumber (decimalNumeral ds) = Fin (inject_Z (digitsValue 10 ds)).
Proof.
  intros Hne Hds Hsafe. unfold StringToNumber.
  rewrite (literalValue_numeral ds Hne Hds).
  apply roundToBinary64_safe_integer. split; [|exact Hsafe].
  unfold digitsValue.
  assert (H : forall acc, 0 <= acc ->
              0 <= fold_left (fun acc d => acc * 10 + d) ds acc).
  { clear Hne Hsafe. induction Hds as [|d ds Hd _ IH]; intros acc Hacc;
      simpl; [exact Hacc|].
    apply IH. unfold isDecimalDigit in Hd. lia. }
  apply H. lia.
Qed.

(** A literal below half the least positive binary64 value converts to 0,
    one beyond the largest to Infinity, and an integer literal beyond 2 ^ 53
    to the nearest value with a 53-bit significand. *)
Lemma StringToNumber_rounds :
  StringToNumber "1e-400" = Fin 0
  /\ StringToNumber "1e400" = PosInf
  /\ StringToNumber "9007199254740993" = Fin (inject_Z (2 ^ 53))
  /\ js_lt (num 0) (VStr "1e-400") = false.
Proof. vm_compute. repeat split. Qed.

(** C9, as the code has it: a [greater_than] or [less_than] clause compares
    two finite numbers by their values and two strings lexicographically by
    code units; when one operand is a number and the other a string, the
    string is converted by StringToNumber and the two are compared as
    numbers: the clause fails whenever the string is no numeric literal (its
    conversion is NaN), and when the string is a decimal numeral of at most
    2 ^ 53 the clause holds exactly when the number and the integer the
    numeral denotes are in the order the clause asks for.  The evaluation
    is a total function of the two values. *)
Theorem comparison_by_operand_types
    (c : FilterClauseType) (q : HasIdWithValue)
    (Hkind : filter_condition c = greater_than
             \/ filter_condition c = less_than) :
  let lo := fst (comparisonOperands c q) in
  let hi := snd (comparisonOperands c q) in
  (forall a b : Q,
      lo = VNum (Fin a) -> hi = VNum (Fin b) ->
      evalCondition c q = true <-> (a < b)%Q)
  /\ (forall s t : string,
        lo = VStr s -> hi = VStr t ->
        evalCondition c q = true <-> lex_lt s t)
  /\ (forall (n : JsNumber) (s : string),
        lo = VNum n -> hi = VStr s ->
        evalCondition c q = numberBelow n (StringToNumber s))
  /\ (forall (s : string) (n : JsNumber),
        lo = VStr s -> hi = VNum n ->
        evalCondition c q = numberBelow (StringToNumber s) n)
  /\ (forall (n : JsNumber) (s : string),
        (lo = VNum n /\ hi = VStr s) \/ (lo = VStr s /\ hi = VNum n) ->
        StringToNumber s = NaN ->
        evalCondition c q = false)
  /\ (forall (a : Q) (ds : list Z),
        ds <> [] -> Forall isDecimalDigit ds -> digitsValue 10 ds <= 2 ^ 53 ->
        (lo = VNum (Fin a) -> hi = VStr (decimalNumeral ds) ->
         evalCondition c q = true <-> (a < inject_Z (digitsValue 10 ds))%Q)
        /\ (lo = VStr (decimalNumeral ds) -> hi = VNum (Fin a) ->
            evalCondition c q = true
            <-> (inject_Z (digitsValue 10 ds) < a)%Q)).
Proof.
  intros lo hi. rewrite (evalCondition_comparison c q Hkind).
  fold lo hi. clearbody lo hi.
  split; [|split; [|split; [|split; [|split]]]].
  - intros a b -> ->. apply Qltb_lt.
  - intros s t -> ->. apply String_lessThan_lex.
  - intros n s -> ->. reflexivity.
  - intros s n -> ->. reflexivity.
  - intros n s [[-> ->] | [-> ->]] Hnan; unfold js_lt; simpl; rewrite Hnan.
    + now destruct n.
    + reflexivity.
  - intros a ds Hne Hds Hsafe.
    pose proof (StringToNumber_numeral ds Hne Hds Hsafe) as Hnum.
    split; intros -> ->; unfold js_lt; simpl; rewrite Hnum; apply Qltb_lt.
Qed.

Lemma comparison_by_operand_types_witness :
  evalCondition lessThanAbc answerSeven = false
  /\ (evalCondition greaterThanFive
        {| question_id := "q1"; question_value := VNum (Fin (11 # 2)) |}
      = true
      <-> (inject_Z (digitsValue 10 [5%Z]) < 11 # 2)%Q).
Proof.
  split.
  - apply (comparison_by_operand_types lessThanAbc answerSeven
             (or_intror eq_refl))
      with (n := Fin (inject_Z 7)) (s := "abc").
    + left. split; reflexivity.
    + reflexivity.
  - apply (comparison_by_operand_types greaterThanFive
             {| question_id := "q1"; question_value := VNum (Fin (11 # 2)) |}
             (or_introl eq_refl)).
    + discriminate.
    + repeat constructor; unfold isDecimalDigit; lia.
    + vm_compute. discriminate.
    + reflexivity.
    + reflexivity.
Defined.

(** C9, as stated, fails: the answer 7, a number, passes the clause
    [greater_than "5"], whose value is a string. *)
Lemma mismatched_types_compare_true :
  question_value answerSeven = num 7
  /\ filter_value greaterThanFive = VStr "5"
  /\ evalCondition greaterThanFive answerSeven = true.
Proof. split; [reflexivity|]. split; [reflexivity|]. vm_compute. reflexivity. Qed.

(** ** Windowing *)

Lemma js_slice_length {A : Type} (l : list A) (start len : Z) :
  0 <= len -> Z.of_nat (length (js_slice l start (len + start))) <= len.
Proof.
  intros Hlen. unfold js_slice. rewrite length_take, length_drop.
  destruct (Z.ltb_spec start 0), (Z.ltb_spec (len + start) 0); lia.
Qed.

Lemma js_slice_window {A : Type} (l : list A) (start len : Z) :
  0 <= start -> 0 <= len ->
  js_slice l start (len + start)
  = take (Z.to_nat len) (drop (Z.to_nat start) l).
Proof.
  intros Hs Hl. unfold js_slice.
  destruct (Z.ltb_spec start 0), (Z.ltb_spec (len + start) 0); try lia.
  destruct (Z.le_gt_cases (Z.of_nat (length l)) start) as [Hout|Hin].
  - rewrite !drop_ge by lia. now rewrite !take_nil.
  - replace (Z.to_nat (Z.min start (Z.of_nat (length l))))
      with (Z.to_nat start) by lia.
    destruct (Z.le_gt_cases (len + start) (Z.of_nat (length l))).
    + f_equal. lia.
    + rewrite !take_ge; [reflexivity | |]; rewrite length_drop; lia.
Qed.

Lemma js_slice_beyond {A : Type} (l : list A) (start end_ : Z) :
  Z.of_nat (length l) <= start -> js_slice l start end_ = [].
Proof.
  intros H. unfold js_slice.
  destruct (Z.ltb_spec start 0); [lia|].
  rewrite drop_ge by lia. apply take_nil.
Qed.

(** [ceilDiv n d] is the ceiling of [n / d] for a positive divisor. *)
Lemma ceilDiv_spec (n d : Z) :
  0 < d -> (ceilDiv n d - 1) * d < n <= ceilDiv n d * d.
Proof.
  intros Hd. unfold ceilDiv.
  pose proof (Z.div_mod (- n) d ltac:(lia)) as Hdiv.
  pose proof (Z.mod_pos_bound (- n) d Hd) as Hmod.
  lia.
Qed.

(** C5, as the code has it: the payload is never an error; [responses] is
    the JS slice of the filtered dataset from [offset] to [limit + offset]
    (for an offset and a limit that are not negative: at most [limit] records
    starting at index [offset]), [totalResponses] is the length of the
    filtered dataset, and for a positive limit [pageCount] is the ceiling of
    [totalResponses / limit], while for the limit 0 it is no finite number;
    offset and limit default to 0 and 150; an offset at or beyond the length
    of the filtered dataset gives an empty [responses], whatever the
    limit. *)
Theorem respond_window (req : Request) (D : list Submission) :
  let F := filterResponses (filters req) D in
  let o := resOffset req in
  let l := resLimit req in
  let n := Z.of_nat (length F) in
  (offset req = None -> o = 0)
  /\ (limit req = None -> l = 150)
  /\ exists rs pc,
       respond req D = Page rs n pc
       /\ rs = js_slice F o (l + o)
       /\ (0 <= o -> 0 <= l ->
           rs = take (Z.to_nat l) (drop (Z.to_nat o) F))
       /\ (0 <= l -> Z.of_nat (length rs) <= l)
       /\ (0 < l ->
           exists k, pc = Fin (inject_Z k) /\ (k - 1) * l < n <= k * l)
       /\ (l = 0 -> forall q, pc <> Fin q)
       /\ (n <= o -> rs = []).
Proof.
  intros F o l n.
  split; [unfold o, resOffset; now intros ->|].
  split; [unfold l, resLimit, parsedLimit; now intros ->|].
  eexists _, _. split; [reflexivity|]. fold F o l n.
  split; [reflexivity|]. split; [|split; [|split; [|split]]].
  - apply js_slice_window.
  - apply js_slice_length.
  - intros Hl. exists (ceilDiv n l). split; [|now apply ceilDiv_spec].
    unfold l, resLimit in *.
    destruct (parsedLimit req) as [|d]; simpl in *; [lia|].
    unfold Math_ceil_div. destruct (Z.eqb_spec d 0); [lia | reflexivity].
  - intros Hl q. unfold l, resLimit in Hl.
    destruct (parsedLimit req) as [|d]; simpl in *.
    + unfold Math_ceil_div. simpl.
      destruct (n =? 0); [discriminate|]. now destruct (0 <? n).
    + subst d. unfold Math_ceil_div. simpl.
      destruct (n =? 0); [discriminate|]. now destruct (0 <? n).
  - apply js_slice_beyond.
Qed.

Lemma respond_window_witness :
  exists rs pc,
    respond plainRequest [answersTwo; answersTwo] = Page rs 2 pc
    /\ rs = [answersTwo; answersTwo]
    /\ exists k, pc = Fin (inject_Z k) /\ (k - 1) * 150 < 2 <= k * 150.
Proof.
  destruct (respond_window plainRequest [answersTwo; answersTwo])
    as (_ & _ & rs & pc & Hrun & _ & Hrs & _ & Hpc & _).
  exists rs, pc. split; [exact Hrun|]. split.
  - rewrite Hrs; [reflexivity | |]; vm_compute; discriminate.
  - apply Hpc. reflexivity.
Defined.

(** C5, as stated, fails: for the limit 0, which the validation admits, and
    a dataset of one record, [pageCount] is [Math.ceil(1 / 0)], Infinity:
    not the ceiling of a quotient, and no integer. *)
Lemma limit_zero_pageCount_not_finite :
  limit (withWindow 0 0 plainRequest) = Some (Integer 0)
  /\ respond (withWindow 0 0 plainRequest) [answersTwo] = Page [] 1 PosInf
  /\ (forall k : Z, PosInf <> Fin (inject_Z k)).
Proof. split; [reflexivity|]. split; [reflexivity | discriminate]. Qed.

(** ** The fetch loop *)

(** A run that ends is what the loop computes, given fuel for one test of
    the condition more than it makes requests. *)
Lemma loopRun_fetchLoop getPage responses offset totalPages out reqs :
  loopRun getPage responses offset totalPages out reqs ->
  forall fuel, (length reqs < fuel)%nat ->
    fetchLoop fuel getPage responses offset totalPages = (out, reqs).
Proof.
  induction 1 as [rs o tp Hlt | rs o tp Hlt Hget
                 | rs o tp resp out reqs Hlt Hget Hrun IH];
    intros [|fuel] Hfuel; simpl in *; try lia; rewrite Hlt.
  - reflexivity.
  - now rewrite Hget.
  - rewrite Hget, IH by lia. reflexivity.
Qed.

Lemma loopRun_outcome getPage responses offset totalPages out reqs :
  loopRun getPage responses offset totalPages out reqs -> out <> OutOfFuel.
Proof. induction 1; [discriminate | discriminate | assumption]. Qed.

(** The offsets requested are successive multiples of the page size. *)
Lemma loopRun_offsets getPage responses offset totalPages out reqs :
  loopRun getPage responses offset totalPages out reqs ->
  reqs = pageOffsets offset (length reqs).
Proof.
  unfold pageOffsets.
  induction 1 as [| | rs o tp resp out reqs Hlt Hget Hrun IH]; simpl.
  - reflexivity.
  - f_equal. lia.
  - f_equal; [lia|]. rewrite IH at 1. rewrite <- seq_shift, map_map.
    apply map_ext. intros i. lia.
Qed.

(** Why the loop went on after each request but the last: the next offset
    was below the page count just reported. *)
Lemma loopRun_continues getPage responses offset totalPages out reqs :
  loopRun getPage responses offset totalPages out reqs ->
  forall i : nat, (S i < length reqs)%nat ->
    exists resp,
      getPage (offset + 150 * Z.of_nat i) = Some resp
      /\ offset + 150 * Z.of_nat (S i) < page_pageCount resp.
Proof.
  induction 1 as [| | rs o tp resp out reqs Hlt Hget Hrun IH];
    simpl; intros i Hi; try lia.
  destruct i as [|i].
  - exists resp. replace (o + 150 * Z.of_nat 0) with o by lia.
    split; [exact Hget|].
    inversion Hrun; subst; simpl in *; try lia;
      match goal with H : (_ <? _) = true |- _ => apply Z.ltb_lt in H end; lia.
  - destruct (IH i ltac:(lia)) as (resp' & Hget' & Hlt').
    exists resp'. split.
    + rewrite <- Hget'. f_equal. lia.
    + lia.
Qed.

(** Why the loop stopped: the last request failed, or the offset after it
    had reached the page count it reported. *)
Lemma loopRun_stops getPage responses offset totalPages out reqs :
  loopRun getPage responses offset totalPages out reqs ->
  forall n : nat, length reqs = S n ->
    (getPage (offset + 150 * Z.of_nat n) = None /\ out = FetchFailed)
    \/ (exists resp rs,
          getPage (offset + 150 * Z.of_nat n) = Some resp
          /\ page_pageCount resp <= offset + 150 * Z.of_nat (S n)
          /\ out = Fetched rs).
Proof.
  induction 1 as [| rs o tp Hlt Hget | rs o tp resp out reqs Hlt Hget Hrun IH];
    simpl; intros n Hn; try lia.
  - injection Hn as <-. left.
    replace (o + 150 * Z.of_nat 0) with o by lia. now split.
  - injection Hn as Hn. destruct n as [|n].
    + right. destruct reqs; [|discriminate].
      inversion Hrun; subst. exists resp, (rs ++ page_responses resp)%list.
      replace (o + 150 * Z.of_nat 0) with o by lia.
      split; [exact Hget|]. split; [|reflexivity].
      match goal with H : offset_lt _ _ = false |- _ =>
        simpl in H; apply Z.ltb_ge in H end. lia.
    + destruct (IH n Hn) as [[Hnone ->] | (resp' & rs' & Hsome & Hle & ->)].
      * left. split; [|reflexivity]. rewrite <- Hnone. f_equal. lia.
      * right. exists resp', rs'. split; [|split; [lia | reflexivity]].
        rewrite <- Hsome. f_equal. lia.
Qed.

(** With the reported page counts bounded, the loop ends from every state
    that has read a page. *)
Lemma loopRun_bounded getPage (B : Z) :
  (forall offset resp, getPage offset = Some resp -> page_pageCount resp <= B) ->
  forall (m : nat) responses offset c,
    c <= B -> B < offset + 150 * Z.of_nat m ->
    exists out reqs,
      loopRun getPage responses offset (Count c) out reqs
      /\ (length reqs <= m)%nat.
Proof.
  intros Hbound. induction m as [|m IH]; intros rs o c Hc Hm.
  - exists (Fetched rs), []. split; [|simpl; lia].
    constructor. simpl. apply Z.ltb_ge. lia.
  - destruct (offset_lt o (Count c)) eqn:Hlt.
    + destruct (getPage o) as [resp|] eqn:Hget.
      * destruct (IH (rs ++ page_responses resp)%list (o + 150)
                     (page_pageCount resp))
          as (out & reqs & Hrun & Hlen); [exact (Hbound _ _ Hget) | lia |].
        exists out, (o :: reqs). split; [|simpl; lia].
        eapply run_page; eassumption.
      * exists FetchFailed, [o]. split; [now constructor | simpl; lia].
    + exists (Fetched rs), []. split; [now constructor | simpl; lia].
Qed.

(** With the reported page counts bounded, the loop with exact offsets
    ends, having requested successive multiples of 150. *)
Lemma fetchAll_bounded_run (getPage : GetPage) (B : Z)
    (Hbound : forall offset resp,
        getPage offset = Some resp -> page_pageCount resp <= B) :
  exists (n : nat) (out : FetchOutcome),
    (forall fuel, (S n < fuel)%nat ->
        fetchAll fuel getPage = (out, pageOffsets 0 (S n)))
    /\ out <> OutOfFuel
    /\ 150 * Z.of_nat n < Z.max B 1
    /\ (forall i : nat, (i < n)%nat ->
          exists resp,
            getPage (150 * Z.of_nat i) = Some resp
            /\ 150 * Z.of_nat (S i) < page_pageCount resp)
    /\ ((getPage (150 * Z.of_nat n) = None /\ out = FetchFailed)
        \/ (exists resp rs,
              getPage (150 * Z.of_nat n) = Some resp
              /\ page_pageCount resp <= 150 * Z.of_nat (S n)
              /\ out = Fetched rs)).
Proof.
  assert (Hrun : exists out reqs n,
             loopRun getPage [] 0 POSITIVE_INFINITY out reqs
             /\ length reqs = S n).
  { destruct (getPage 0) as [resp|] eqn:Hget.
    - destruct (loopRun_bounded getPage B Hbound (Z.to_nat B)
                  ([] ++ page_responses resp)%list (0 + 150)
                  (page_pageCount resp))
        as (out & reqs & Hrun & _); [exact (Hbound _ _ Hget) | lia |].
      exists out, (0 :: reqs), (length reqs). split; [|reflexivity].
      eapply run_page; [reflexivity | exact Hget | exact Hrun].
    - exists FetchFailed, [0], 0%nat. split; [|reflexivity].
      now constructor. }
  destruct Hrun as (out & reqs & n & Hrun & Hlen).
  pose proof (loopRun_continues _ _ _ _ _ _ Hrun) as Hcont.
  rewrite Hlen in Hcont.
  assert (Hcont' : forall i : nat, (i < n)%nat ->
            exists resp,
              getPage (150 * Z.of_nat i) = Some resp
              /\ 150 * Z.of_nat (S i) < page_pageCount resp).
  { intros i Hi. destruct (Hcont i ltac:(lia)) as (resp & Hget & Hlt).
    exists resp. split; [exact Hget | lia]. }
  exists n, out. split; [|split; [|split; [|split]]].
  - intros fuel Hfuel. unfold fetchAll.
    rewrite (loopRun_fetchLoop _ _ _ _ _ _ Hrun) by lia.
    f_equal. rewrite <- Hlen. now apply loopRun_offsets in Hrun.
  - eapply loopRun_outcome, Hrun.
  - destruct n as [|n]; [lia|].
    destruct (Hcont' n ltac:(lia)) as (resp & Hget & Hlt).
    pose proof (Hbound _ _ Hget). lia.
  - exact Hcont'.
  - destruct (loopRun_stops _ _ _ _ _ _ Hrun n Hlen)
      as [[Hnone ->] | (resp & rs & Hget & Hle & ->)].
    + left. now split.
    + right. exists resp, rs. split; [exact Hget|]. split; [lia | reflexivity].
Qed.

(** *** The offset in binary64 *)

Lemma roundToBinary64_even (z : Z) :
  2 ^ 53 <= z < 2 ^ 54 -> Z.even z = true ->
  roundToBinary64 (inject_Z z) = Fin (inject_Z z).
Proof.
  intros Hz Heven. unfold roundToBinary64, inject_Z. simpl Qnum. simpl Qden.
  assert (H53 : 0 < 2 ^ 53) by reflexivity.
  destruct z as [|p|p]; [lia | | lia].
  set (z := Z.pos p) in *.
  assert (HL : Z.log2 z = 53).
  { apply Z.log2_unique; [lia|]. change (53 + 1) with 54. exact Hz. }
  unfold roundPositive. change (Z.log2 1) with 0.
  rewrite Z.sub_0_r, Z.mul_1_r, HL.
  change (0 <=? 53) with true. cbv iota.
  destruct (Z.leb_spec (2 ^ 53) z); [|lia].
  change (Z.max (53 - 52) (-1074)) with 1. change (0 <=? 1) with true.
  cbv iota. rewrite Z.mul_1_l. change (2 ^ 1) with 2.
  apply Z.even_spec in Heven. destruct Heven as [k Hk].
  assert (Hdiv : z / 2 = k) by (rewrite Hk, Z.mul_comm; apply Z.div_mul; lia).
  assert (Hmod : z mod 2 = 0) by (rewrite Hk, Z.mul_comm; apply Z.mod_mul; lia).
  rewrite Hdiv, Hmod. change (2 * 0 <? 2) with true. cbv iota.
  assert (2 ^ 54 < 2 ^ 1024) by (apply Z.pow_lt_mono_r; lia).
  destruct (Z.leb_spec (2 ^ 1024) (k * 2)); [lia|].
  replace (k * 2) with z by lia. reflexivity.
Qed.

Lemma addPageSize_exact (i : Z) :
  0 <= i -> 150 * i < 2 ^ 53 -> addPageSize (150 * i) = 150 * i + 150.
Proof.
  intros Hi Hlt. unfold addPageSize.
  assert (H53 : 0 < 2 ^ 53) by reflexivity.
  assert (Hround : roundToBinary64 (inject_Z (150 * i + 150))
                   = Fin (inject_Z (150 * i + 150))).
  { destruct (Z.le_gt_cases (150 * i + 150) (2 ^ 53)).
    - apply roundToBinary64_safe_integer. lia.
    - apply roundToBinary64_even.
      + change (2 ^ 54) with (2 * 2 ^ 53). lia.
      + replace (150 * i + 150) with (2 * (75 * i + 75)) by lia.
        apply Z.even_mul. }
  rewrite Hround. simpl. apply Z.div_1_r.
Qed.

Lemma addPageSize_below (x : Z) :
  0 <= x <= 2 ^ 61 -> 0 <= addPageSize x <= 2 ^ 61.
Proof.
  intros Hx. unfold addPageSize, roundToBinary64, inject_Z.
  simpl Qnum. simpl Qden.
  assert (H61 : 2 ^ 61 = 2305843009213693952) by reflexivity.
  destruct (x + 150) as [|p|p] eqn:Ha; [lia | | lia].
  set (a := Z.pos p) in *.
  assert (Hpos : 0 < a) by (unfold a; lia).
  pose proof (Z.log2_spec a Hpos) as Hlog.
  pose proof (Z.log2_nonneg a) as Hnn.
  assert (Hle : Z.log2 a <= 61).
  { change 61 with (Z.log2 (2 ^ 62 - 1)). apply Z.log2_le_mono.
    change (2 ^ 62) with (2 * 2 ^ 61). lia. }
  unfold roundPositive. change (Z.log2 1) with 0.
  rewrite Z.sub_0_r, Z.mul_1_r.
  set (L := Z.log2 a) in *.
  destruct (Z.leb_spec 0 L); [|lia].
  destruct (Z.leb_spec (2 ^ L) a); [|lia].
  rewrite Z.max_l by lia.
  destruct (Z.leb_spec 0 (L - 52)) as [Hu|Hu].
  - rewrite Z.mul_1_l.
    set (U := 2 ^ (L - 52)) in *.
    assert (HU : 0 < U) by (apply Z.pow_pos_nonneg; lia).
    pose proof (Z.div_mod a U ltac:(lia)) as Hdm.
    pose proof (Z.mod_pos_bound a U HU) as Hmod.
    assert (Hsplit : 2 ^ (L + 1) = 2 ^ 53 * U).
    { unfold U. rewrite <- Z.pow_add_r by lia. f_equal. lia. }
    assert (H53 : 2 ^ 53 = 9007199254740992) by reflexivity.
    assert (Hm : 0 <= a / U < 2 ^ 53).
    { split; [apply Z.div_pos; lia|].
      apply Z.div_lt_upper_bound; [lia|]. rewrite Z.mul_comm. lia. }
    set (m := a / U) in *. set (r := a mod U) in *.
    set (m' := if 2 * r <? U then m else _).
    assert (Hm' : m <= m' <= m + 1).
    { unfold m'. destruct (2 * r <? U); [lia|].
      destruct (U <? 2 * r); [lia|]. destruct (Z.even m); lia. }
    assert (Hv : 0 <= m' * U <= 2 ^ 61).
    { split; [nia|].
      destruct (Z.eq_dec L 61) as [HL|HL].
      - (* the sum is between 2 ^ 61 and 2 ^ 61 + 150: it rounds down *)
        assert (HUv : U = 512) by (unfold U; rewrite HL; reflexivity).
        assert (Hlo : 2 ^ 61 <= a) by (rewrite <- HL; lia).
        assert (Hmv : m = 2 ^ 52).
        { unfold m. rewrite HUv. symmetry.
          apply (Z.div_unique a 512 (2 ^ 52) (a - 2 ^ 61)); [lia|].
          change (2 ^ 52) with 4503599627370496. lia. }
        assert (Hrv : r = a - 2 ^ 61).
        { unfold r. rewrite HUv. symmetry.
          apply (Z.mod_unique a 512 (2 ^ 52) (a - 2 ^ 61)); [lia|].
          change (2 ^ 52) with 4503599627370496. lia. }
        unfold m'. destruct (Z.ltb_spec (2 * r) U); [|lia].
        rewrite Hmv, HUv. reflexivity.
      - assert (HL' : L + 1 <= 61) by lia.
        assert (2 ^ (L + 1) <= 2 ^ 61) by (apply Z.pow_le_mono_r; lia).
        nia. }
    assert (2 ^ 61 < 2 ^ 1024) by (apply Z.pow_lt_mono_r; lia).
    destruct (Z.leb_spec (2 ^ 1024) (m' * U)); [lia|].
    simpl. rewrite Z.div_1_r. exact Hv.
  - rewrite Z.div_1_r, Z.mod_1_r. change (2 * 0 <? 1) with true. cbv iota.
    replace (- (L - 52)) with (52 - L) by lia.
    rewrite Qred_scaled by (apply Z.pow_pos_nonneg; lia).
    simpl. rewrite Z.div_1_r.
    assert (2 ^ (L + 1) <= 2 ^ 52) by (apply Z.pow_le_mono_r; lia).
    assert (2 ^ 52 < 2 ^ 61) by reflexivity. lia.
Qed.

(** While the page counts reported are at most 2 ^ 53, binary64 advances
    the offset exactly, and the two loops are one. *)
Lemma fetchLoop64_exact (getPage : GetPage) :
  (forall offset resp,
      getPage offset = Some resp -> page_pageCount resp <= 2 ^ 53) ->
  forall fuel responses (i : Z) totalPages,
    0 <= i ->
    match totalPages with
    | POSITIVE_INFINITY => i = 0
    | Count c => c <= 2 ^ 53
    end ->
    fetchLoop64 fuel getPage responses (150 * i) totalPages
    = fetchLoop fuel getPage responses (150 * i) totalPages.
Proof.
  intros Hsafe. induction fuel as [|fuel IH]; intros rs i tp Hi Htp; simpl;
    [reflexivity|].
  destruct (offset_lt (150 * i) tp) eqn:Hlt; [|reflexivity].
  destruct (getPage (150 * i)) as [resp|] eqn:Hget; [|reflexivity].
  assert (H53 : 0 < 2 ^ 53) by reflexivity.
  rewrite addPageSize_exact.
  - replace (150 * i + 150) with (150 * (i + 1)) by lia.
    rewrite IH; [reflexivity | lia | exact (Hsafe _ _ Hget)].
  - exact Hi.
  - destruct tp as [|c]; simpl in Hlt; [lia|].
    apply Z.ltb_lt in Hlt. lia.
Qed.

(** C6, as the code has it: when the page counts the remote reports are at
    most a bound [B] of at most 2 ^ 53, the range in which binary64 holds
    the offsets exactly, the loop ends.  It requests the offsets 0, 150,
    ..., 150 * n one after the other, each but the first because the offset
    was below the page count reported just before, and stops at the first
    request that fails or after the first response whose page count the
    next offset has reached; 150 * n stays below the bound. *)
Theorem fetch_terminates_bounded (getPage : GetPage) (B : Z)
    (Hsafe : B <= 2 ^ 53)
    (Hbound : forall offset resp,
        getPage offset = Some resp -> page_pageCount resp <= B) :
  exists (n : nat) (out : FetchOutcome),
    (forall fuel, (S n < fuel)%nat ->
        fetchAll64 fuel getPage = (out, pageOffsets 0 (S n)))
    /\ out <> OutOfFuel
    /\ 150 * Z.of_nat n < Z.max B 1
    /\ (forall i : nat, (i < n)%nat ->
          exists resp,
            getPage (150 * Z.of_nat i) = Some resp
            /\ 150 * Z.of_nat (S i) < page_pageCount resp)
    /\ ((getPage (150 * Z.of_nat n) = None /\ out = FetchFailed)
        \/ (exists resp rs,
              getPage (150 * Z.of_nat n) = Some resp
              /\ page_pageCount resp <= 150 * Z.of_nat (S n)
              /\ out = Fetched rs)).
Proof.
  destruct (fetchAll_bounded_run getPage B Hbound)
    as (n & out & Hrun & Hrest).
  exists n, out. split; [|exact Hrest].
  intros fuel Hfuel. rewrite <- (Hrun fuel Hfuel).
  unfold fetchAll64, fetchAll.
  apply (fetchLoop64_exact getPage) with (i := 0); [|lia|reflexivity].
  intros offset resp Hget. pose proof (Hbound offset resp Hget). lia.
Qed.

Lemma fetch_terminates_bounded_witness :
  exists (n : nat) (out : FetchOutcome),
    (forall fuel, (S n < fuel)%nat ->
        fetchAll64 fuel (pagedRemote twoPages) = (out, pageOffsets 0 (S n)))
    /\ out <> OutOfFuel.
Proof.
  destruct (fetch_terminates_bounded (pagedRemote twoPages) 2)
    as (n & out & Hrun & Hout & _).
  - vm_compute. discriminate.
  - intros offset resp [= <-]. simpl. lia.
  - exists n, out. now split.
Defined.

Lemma hugeRemote_loop fuel :
  forall responses offset totalPages,
    0 <= offset <= 2 ^ 61 ->
    totalPages = POSITIVE_INFINITY \/ totalPages = Count (2 ^ 62) ->
    fst (fetchLoop64 fuel hugeRemote responses offset totalPages) = OutOfFuel.
Proof.
  induction fuel as [|fuel IH]; intros rs x tp Hx Htp; simpl; [reflexivity|].
  assert (Hlt : offset_lt x tp = true).
  { destruct Htp as [-> | ->]; simpl; [reflexivity|].
    apply Z.ltb_lt. change (2 ^ 62) with (2 * 2 ^ 61).
    assert (0 < 2 ^ 61) by reflexivity. lia. }
  rewrite Hlt.
  specialize (IH (rs ++ [])%list (addPageSize x) (Count (2 ^ 62))
                 (addPageSize_below x Hx) (or_intror eq_refl)).
  change (page_pageCount
            {| page_responses := []; page_pageCount := 2 ^ 62 |})
    with (2 ^ 62).
  change (page_responses
            {| page_responses := []; page_pageCount := 2 ^ 62 |})
    with (@nil Submission).
  destruct (fetchLoop64 fuel hugeRemote _ _ _). exact IH.
Qed.

(** C6, as stated, fails: every response of [hugeRemote] reports the finite
    page count 2 ^ 62, which binary64 holds exactly, and the loop never ends
    on it, whatever the fuel: from 2 ^ 61 on, adding 150 to the offset
    leaves it as it is. *)
Lemma huge_page_count_never_ends :
  (forall offset, exists resp,
      hugeRemote offset = Some resp /\ page_pageCount resp = 2 ^ 62)
  /\ roundToBinary64 (inject_Z (2 ^ 62)) = Fin (inject_Z (2 ^ 62))
  /\ addPageSize (2 ^ 61) = 2 ^ 61
  /\ (forall fuel, fst (fetchAll64 fuel hugeRemote) = OutOfFuel).
Proof.
  split; [intros offset; eexists; split; reflexivity|].
  split; [vm_compute; reflexivity|]. split; [vm_compute; reflexivity|].
  intros fuel. unfold fetchAll64. apply hugeRemote_loop; [|now left].
  split; [lia|]. assert (0 < 2 ^ 61) by reflexivity. lia.
Qed.

(** On a remote that holds at most 150 pages the loop reads the first page
    and stops: after one request the offset is 150, which the page count
    does not exceed. *)
Lemma fetchAll_first_page_only (pages : list (list Submission)) (fuel : nat) :
  (length pages <= 150)%nat -> (2 <= fuel)%nat ->
  fetchAll fuel (pagedRemote pages) = (Fetched (nth 0 pages []), [0]).
Proof.
  intros Hpages Hfuel. destruct fuel as [|[|fuel]]; try lia.
  unfold fetchAll. simpl.
  destruct (Z.ltb_spec (0 + 150) (Z.of_nat (length pages))); [lia | reflexivity].
Qed.

(** C1, at the failing input: the remote holds two pages, 151 records, and
    the loop returns the 150 records of the first page only, which is what
    the handler caches and answers from. *)
Theorem fetch_stops_after_first_page :
  (forall fuel, (2 <= fuel)%nat ->
      fetchAll fuel (pagedRemote twoPages) = (Fetched (recordsFrom 0 150), [0]))
  /\ concat twoPages = recordsFrom 0 151
  /\ recordsFrom 0 150 <> concat twoPages
  /\ exists st',
       handler 2 (fun _ _ => pagedRemote twoPages) plainRequest initialState
       = Some (Page (recordsFrom 0 150) 150 (Fin (inject_Z 1)), st')
       /\ map_get (cache st') (cacheKey plainRequest)
          = Some (recordsFrom 0 150).
Proof.
  split; [|split; [|split]].
  - intros fuel Hfuel.
    apply (fetchAll_first_page_only twoPages); [simpl; lia | exact Hfuel].
  - reflexivity.
  - intros H. apply (f_equal (@length Submission)) in H. discriminate H.
  - eexists. split; reflexivity.
Qed.

(** ** Failure of a page fetch *)

Lemma fetchLoop_failed fuel getPage responses offset totalPages (o : Z) :
  o ∈ snd (fetchLoop fuel getPage responses offset totalPages) ->
  getPage o = None ->
  fst (fetchLoop fuel getPage responses offset totalPages) = FetchFailed.
Proof.
  revert responses offset totalPages.
  induction fuel as [|fuel IH]; intros rs off tp; simpl.
  - intros Ho. inversion Ho.
  - destruct (offset_lt off tp); [|intros Ho; inversion Ho].
    destruct (getPage off) as [resp|] eqn:Hget; [|reflexivity].
    specialize (IH (rs ++ page_responses resp)%list (off + 150)
                   (Count (page_pageCount resp))).
    destruct (fetchLoop fuel getPage _ _ _) as [out reqs]. simpl in *.
    intros Ho Hnone. apply elem_of_cons in Ho as [->|Ho]; [congruence|].
    now apply IH.
Qed.

(** C3: when the key is not cached and one of the page requests the loop
    makes fails, the handler answers [{error: "Request failed!"}] and
    nothing else, and leaves cache and queue as they were. *)
Theorem fetch_failure_discards (fuel : nat) (api : RemoteApi) (req : Request)
    (st : ServerState) (o : Z)
    (Hmiss : map_has (cache st) (cacheKey req) = false)
    (Hreq : o ∈ snd (fetchAll fuel (api (formId req) (params req))))
    (Hfail : api (formId req) (params req) o = None) :
  handler fuel api req st = Some (Error "Request failed!", st).
Proof.
  unfold handler. rewrite Hmiss.
  unfold fetchAll in *. now rewrite (fetchLoop_failed _ _ _ _ _ o Hreq Hfail).
Qed.

Lemma fetch_failure_discards_witness :
  snd (fetchAll 3 failingRemote) = [0; 150]
  /\ handler 3 (fun _ _ => failingRemote) plainRequest initialState
     = Some (Error "Request failed!", initialState).
Proof.
  split; [reflexivity|].
  apply (fetch_failure_discards 3 (fun _ _ => failingRemote) plainRequest
           initialState 150).
  - reflexivity.
  - right. left.
  - reflexivity.
Defined.

(** ** The cache key *)

Lemma readString_escapeChar (c : ascii) (s : string) :
  readString (escapeChar c ++ s)
  = match readString s with
    | Some (body, rest) => Some (String c body, rest)
    | None => None
    end.
Proof.
  destruct c as [[] [] [] [] [] [] [] []]; reflexivity.
Qed.

Lemma append_assoc (a b c : string) : ((a ++ b) ++ c = a ++ (b ++ c))%string.
Proof.
  induction a as [|x a IH]; [reflexivity|].
  change (String x ((a ++ b) ++ c) = String x (a ++ (b ++ c)))%string.
  f_equal. exact IH.
Qed.

Lemma readString_escapeString (s rest : string) :
  readString (escapeString s ++ String quoteChar rest) = Some (s, rest).
Proof.
  induction s as [|c s IH]; [reflexivity|].
  cbn [escapeString].
  now rewrite append_assoc, readString_escapeChar, IH.
Qed.

Lemma append_cons (c : ascii) (s t : string) :
  (String c s ++ t = String c (s ++ t))%string.
Proof. reflexivity. Qed.

Lemma append_nil_l (t : string) : (EmptyString ++ t = t)%string.
Proof. reflexivity. Qed.

Lemma QuoteJSONString_app (s rest : string) :
  (QuoteJSONString s ++ rest
   = String quoteChar (escapeString s ++ String quoteChar rest))%string.
Proof.
  unfold QuoteJSONString. now rewrite append_cons, append_assoc.
Qed.

Ltac flatten_text :=
  repeat (rewrite append_assoc || rewrite QuoteJSONString_app
          || rewrite append_cons || rewrite append_nil_l).

(** The key is the text of its members, one after the other. *)
Lemma cacheKey_text (req : Request) :
  cacheKey req = keyText (formId req) (params req).
Proof.
  destruct req as [form [a b st e so] fs o l].
  unfold cacheKey, createHash, JSON_stringify, paramsObject, keyText,
    keyOpening, memberText, memberPrefix.
  destruct a, b, st, e, so;
    cbn [flat_map jsonMember fst snd app String.concat
         formId params afterDate beforeDate status includeEditLink sort];
    flatten_text; reflexivity.
Qed.

Lemma dropPrefix_app (p s : string) : dropPrefix p (p ++ s) = Some s.
Proof.
  induction p as [|c p IH]; [now destruct s|].
  rewrite append_cons. simpl. now rewrite Ascii.eqb_refl.
Qed.

Lemma readMember_present (name v rest : string) :
  readMember name (memberPrefix name ++ escapeString v ++ String quoteChar rest)
  = Some (Some v, rest).
Proof.
  unfold readMember. now rewrite dropPrefix_app, readString_escapeString.
Qed.

Lemma readMember_absent (name s : string) :
  dropPrefix (memberPrefix name) s = None ->
  readMember name s = Some (None, s).
Proof. unfold readMember. now intros ->. Qed.

(** Reading a key back gives the form and the parameters it was made of. *)
Lemma readKey_cacheKey (req : Request) :
  readKey (cacheKey req) = Some (formId req, params req).
Proof.
  rewrite cacheKey_text.
  destruct req as [form [a b st e so] fs o l].
  unfold readKey, keyText.
  rewrite dropPrefix_app, readString_escapeString.
  destruct a, b, st, e, so;
    cbn [memberText formId params afterDate beforeDate status
         includeEditLink sort];
    repeat (rewrite readMember_present
            || rewrite readMember_absent by (vm_compute; reflexivity));
    reflexivity.
Qed.

(** C7: the key is a function of exactly [formId] and the five parameters
    of [params]: two requests have the same key if and only if they agree on
    all six, each parameter present or absent in both and with the same
    value, whatever their filters, offset and limit.  Two such requests
    share one cache entry: once one of them has been answered with a page,
    the other is answered from the entry stored under that key, without a
    request to the remote API. *)
Theorem cacheKey_query_identity (r1 r2 : Request) :
  (cacheKey r1 = cacheKey r2
   <-> formId r1 = formId r2 /\ params r1 = params r2)
  /\ (formId r1 = formId r2 -> params r1 = params r2 ->
      forall fuel api st rs total pc st',
        handler fuel api r1 st = Some (Page rs total pc, st') ->
        exists cached,
          map_get (cache st') (cacheKey r2) = Some cached
          /\ respond r1 cached = Page rs total pc
          /\ forall fuel' api',
               handler fuel' api' r2 st' = Some (respond r2 cached, st')).
Proof.
  split.
  { split.
    - intros Hkey.
      pose proof (readKey_cacheKey r1) as H1.
      pose proof (readKey_cacheKey r2) as H2.
      rewrite Hkey, H2 in H1. now injection H1 as -> ->.
    - intros [Hform Hparams]. unfold cacheKey. now rewrite Hform, Hparams. }
  intros Hform Hparams.
  assert (Hkey : cacheKey r1 = cacheKey r2).
  { unfold cacheKey. now rewrite Hform, Hparams. }
  intros fuel api st rs total pc st' Hrun.
  assert (Hcached : exists cached,
             map_get (cache st') (cacheKey r1) = Some cached
             /\ respond r1 cached = Page rs total pc).
  { unfold handler in Hrun.
    destruct (map_has (cache st) (cacheKey r1)).
    - destruct (map_get (cache st) (cacheKey r1)) as [cached|] eqn:Hget;
        [|discriminate].
      assert (E : respond r1 cached = Page rs total pc /\ st = st')
        by (split; congruence).
      destruct E as [Hresp <-]. now exists cached.
    - destruct (fst (fetchAll fuel (api (formId r1) (params r1))))
        as [responses| |]; try discriminate.
      assert (E : respond r1 responses = Page rs total pc
                  /\ cacheData (cacheKey r1) responses st = st')
        by (split; congruence).
      destruct E as [Hresp <-]. exists responses. split; [|exact Hresp].
      unfold cacheData. simpl. apply map_get_set. }
  destruct Hcached as (cached & Hget & Hresp).
  rewrite Hkey in Hget. exists cached. split; [exact Hget|].
  split; [exact Hresp|].
  intros fuel' api'.
  destruct (handler_hit fuel' api' r2 st') as (cached' & Hget' & Hrun').
  - unfold map_has. now rewrite Hget.
  - rewrite Hget in Hget'. injection Hget' as <-. exact Hrun'.
Qed.

Lemma cacheKey_query_identity_witness :
  cacheKey plainRequest = cacheKey windowedRequest
  /\ cacheKey plainRequest <> cacheKey sortedRequest.
Proof.
  split.
  - apply (proj1 (cacheKey_query_identity plainRequest windowedRequest)).
    split; reflexivity.
  - intros Hkey.
    apply (proj1 (cacheKey_query_identity plainRequest sortedRequest)) in Hkey.
    destruct Hkey as [_ Hparams]. discriminate Hparams.
Defined.

(** * Further properties of the code *)

(** ** [cacheData] as a map update *)

Lemma map_get_set_ne {V : Type} (m : list (string * V)) k k' v :
  k <> k' -> map_get (map_set m k v) k' = map_get m k'.
Proof.
  intros Hne. induction m as [|[k0 v0] m IH]; simpl.
  - destruct (String.eqb_spec k k'); [contradiction | reflexivity].
  - destruct (String.eqb_spec k0 k) as [->|Hk]; simpl.
    + destruct (String.eqb_spec k k'); [contradiction | reflexivity].
    + destruct (String.eqb_spec k0 k'); [reflexivity | exact IH].
Qed.

Lemma map_get_delete_ne {V : Type} (m : list (string * V)) k k' :
  k <> k' -> map_get (map_delete m k) k' = map_get m k'.
Proof.
  intros Hne. induction m as [|[k0 v0] m IH]; simpl; [reflexivity|].
  destruct (String.eqb_spec k0 k) as [->|Hk]; simpl.
  - destruct (String.eqb_spec k k'); [contradiction | reflexivity].
  - destruct (String.eqb_spec k0 k'); [reflexivity | exact IH].
Qed.

Lemma map_get_delete {V : Type} (m : list (string * V)) k :
  NoDup (map_keys m) -> map_get (map_delete m k) k = None.
Proof.
  intros Hnd. pose proof (map_has_delete m k Hnd) as H.
  unfold map_has in H. now destruct (map_get (map_delete m k) k).
Qed.

Lemma cacheData_get st key responses k :
  NoDup (map_keys (cache st)) ->
  map_get (cache (cacheData key responses st)) k
  = if String.eqb k key then Some responses
    else match evictedKey st with
         | Some oldest =>
             if String.eqb k oldest then None else map_get (cache st) k
         | None => map_get (cache st) k
         end.
Proof.
  intros Hnd. unfold cacheData, evictedKey.
  destruct (String.eqb_spec k key) as [->|Hne].
  - simpl. apply map_get_set.
  - simpl. rewrite map_get_set_ne by congruence.
    destruct (Nat.eqb (length (queue st)) maxLen); [|reflexivity].
    destruct (queue st) as [|oldest rest]; simpl; [reflexivity|].
    destruct (String.eqb_spec k oldest) as [->|Hk].
    + now apply map_get_delete.
    + apply map_get_delete_ne. congruence.
Qed.

(** X1: in every reachable state, [cacheData(key, responses)] acts on the
    cache as a map update: afterwards [key] is bound to [responses], the key
    at the head of a full queue (if it is not [key]) is unbound, and every
    other key is bound as before. *)
Theorem cacheData_lookup (st : ServerState) (Hreach : reachable st)
    (key : string) (responses : list Submission) (k : string) :
  map_get (cache (cacheData key responses st)) k
  = if String.eqb k key then Some responses
    else match evictedKey st with
         | Some oldest =>
             if String.eqb k oldest then None else map_get (cache st) k
         | None => map_get (cache st) k
         end.
Proof.
  destruct (reachable_cacheInv st Hreach) as (Hnd & _ & _).
  now apply cacheData_get.
Qed.

Lemma cacheData_lookup_witness :
  map_get (cache (cacheData "k10" [] fullState)) "k0" = None
  /\ map_get (cache (cacheData "k10" [] fullState)) "k1" = Some []
  /\ map_get (cache (cacheData "k10" [] fullState)) "k10" = Some [].
Proof.
  assert (Hreach : reachable fullState)
    by (apply reachable_cacheAll; constructor).
  split; [|split]; rewrite (cacheData_lookup fullState Hreach); reflexivity.
Defined.

(** ** Requests served one after the other *)

Lemma seqInv_cacheData key responses st :
  seqInv st -> map_has (cache st) key = false ->
  seqInv (cacheData key responses st).
Proof.
  intros (Hq & Hnd & Hlen) Hmiss. unfold cacheData.
  set (st1 := if Nat.eqb (length (queue st)) maxLen then _ else st).
  assert (H1 : queue st1 = map_keys (cache st1)
                /\ NoDup (queue st1)
                /\ (length (queue st1) < maxLen)%nat
                /\ map_has (cache st1) key = false).
  { subst st1.
    destruct (Nat.eqb_spec (length (queue st)) maxLen) as [Hfull|Hroom].
    - destruct (queue st) as [|oldest rest] eqn:Hqueue; [discriminate Hfull|].
      destruct (cache st) as [|[k0 d0] m] eqn:Hc; [discriminate Hq|].
      simpl in Hq. injection Hq as -> ->.
      rewrite map_delete_head. simpl.
      apply NoDup_cons in Hnd as [_ Hnd]. simpl in Hfull.
      split; [reflexivity|]. split; [exact Hnd|]. split; [lia|].
      apply map_has_false_keys. apply map_has_false_keys in Hmiss.
      simpl in Hmiss. apply not_elem_of_cons in Hmiss. tauto.
    - repeat split; try assumption. lia. }
  destruct H1 as (Hq1 & Hnd1 & Hlen1 & Hmiss1). unfold seqInv; simpl.
  rewrite map_keys_set, Hmiss1, <- Hq1. split; [reflexivity|]. split.
  - apply NoDup_app. split; [exact Hnd1|]. split; [|apply NoDup_singleton].
    intros x Hx Hx'. apply list_elem_of_singleton in Hx'. subst x.
    apply map_has_false_keys in Hmiss1. rewrite <- Hq1 in Hmiss1. tauto.
  - rewrite length_app. simpl. lia.
Qed.

Lemma served_seqInv st : served st -> seqInv st.
Proof.
  induction 1 as [|fuel api req st payload st' Hst IH Hrun].
  - unfold seqInv, initialState, maxLen; simpl.
    split; [reflexivity|]. split; [constructor | lia].
  - unfold handler in Hrun.
    destruct (map_has (cache st) (cacheKey req)) eqn:Hhas.
    + destruct (map_get (cache st) (cacheKey req)); [|discriminate].
      now injection Hrun as _ <-.
    + destruct (fst (fetchAll fuel (api (formId req) (params req))));
        try discriminate.
      * injection Hrun as _ <-. now apply seqInv_cacheData.
      * now injection Hrun as _ <-.
Qed.

(** X2: when requests are served one after the other, the queue is always
    the list of the keys of the cache in insertion order, without
    repetition; so the test [queue.length === maxLen] of [cacheData] holds
    exactly when the cache has [maxLen] entries, and the key it evicts is
    the one inserted first. *)
Theorem served_queue_is_cache_keys (st : ServerState) (Hserved : served st) :
  queue st = map_keys (cache st)
  /\ NoDup (queue st)
  /\ length (queue st) = length (cache st)
  /\ (evictedKey st <> None <-> length (cache st) = maxLen)
  /\ (forall oldest, evictedKey st = Some oldest ->
        exists data rest, cache st = (oldest, data) :: rest).
Proof.
  destruct (served_seqInv st Hserved) as (Hq & Hnd & Hlen).
  assert (Hlength : length (queue st) = length (cache st)).
  { rewrite Hq. unfold map_keys. apply length_map. }
  split; [exact Hq|]. split; [exact Hnd|]. split; [exact Hlength|].
  unfold evictedKey. rewrite <- Hlength. split.
  - destruct (Nat.eqb_spec (length (queue st)) maxLen) as [Hfull|Hroom].
    + split; [intros _; exact Hfull|]. intros _.
      destruct (queue st); [discriminate Hfull | discriminate].
    + split; [congruence | contradiction].
  - intros oldest. destruct (Nat.eqb (length (queue st)) maxLen); [|discriminate].
    rewrite Hq. destruct (cache st) as [|[k d] rest]; [discriminate|].
    simpl. intros [= ->]. now exists d, rest.
Qed.

Lemma served_queue_is_cache_keys_witness :
  served (cacheData (cacheKey plainRequest) (recordsFrom 0 150) initialState)
  /\ queue (cacheData (cacheKey plainRequest) (recordsFrom 0 150) initialState)
     = [cacheKey plainRequest].
Proof.
  assert (Hserved : served (cacheData (cacheKey plainRequest)
                                      (recordsFrom 0 150) initialState)).
  { apply (served_run 2 (fun _ _ => pagedRemote twoPages) plainRequest
             initialState (Page (recordsFrom 0 150) 150 (Fin (inject_Z 1))));
      [constructor | reflexivity]. }
  split; [exact Hserved|].
  destruct (served_queue_is_cache_keys _ Hserved) as (Hq & _).
  rewrite Hq. reflexivity.
Defined.

(** The entry of [key] through a series of misses: [post] are the keys
    queued behind it so far. *)
Lemma cacheMisses_lifetime key v ins :
  forall s pre post s2,
    seqInv s ->
    queue s = (pre ++ key :: post)%list ->
    map_get (cache s) key = Some v ->
    cacheMisses ins s = Some s2 ->
    ((length post + length ins <= 9)%nat -> map_get (cache s2) key = Some v)
    /\ ((length post + length ins = 10)%nat -> map_get (cache s2) key = None).
Proof.
  induction ins as [|[k' v'] ins IH]; intros s pre post s2 Hinv Hq Hget Hrun.
  - simpl in Hrun. injection Hrun as <-. split; [intros _; exact Hget|].
    intros Hlen. destruct Hinv as (_ & _ & Hmax). rewrite Hq in Hmax.
    rewrite length_app in Hmax. unfold maxLen in Hmax. simpl in *. lia.
  - simpl in Hrun.
    destruct (map_has (cache s) k') eqn:Hmiss; [discriminate|].
    assert (Hne : key <> k').
    { intros ->. unfold map_has in Hmiss. now rewrite Hget in Hmiss. }
    pose proof (seqInv_cacheData k' v' s Hinv Hmiss) as Hinv'.
    destruct Hinv as (Hkeys & Hnd & Hmax).
    assert (Hndk : NoDup (map_keys (cache s))) by now rewrite <- Hkeys.
    pose proof (cacheData_get s k' v' key Hndk) as Hget'.
    destruct (String.eqb_spec key k') as [|_]; [contradiction|].
    assert (Hq' : queue (cacheData k' v' s)
                  = ((if Nat.eqb (length (queue s)) maxLen
                      then tail (queue s) else queue s) ++ [k'])%list).
    { unfold cacheData.
      destruct (Nat.eqb (length (queue s)) maxLen); [|reflexivity].
      destruct (queue s) eqn:E; simpl; [now rewrite E | reflexivity]. }
    unfold evictedKey in Hget'.
    remember (cacheData k' v' s) as s' eqn:Hs'. clear Hs'.
    destruct (Nat.eqb_spec (length (queue s)) maxLen) as [Hfull|Hroom].
    + rewrite Hq in Hget', Hq', Hfull, Hnd.
      destruct pre as [|p0 pre]; simpl in Hget', Hq', Hfull.
      * (* [key] is at the head of the full queue: it is evicted *)
        rewrite String.eqb_refl in Hget'. unfold maxLen in Hfull.
        simpl. split; [lia|]. intros Hlen.
        destruct ins; [|simpl in Hlen; lia].
        simpl in Hrun. injection Hrun as <-. exact Hget'.
      * assert (Hp0 : key <> p0).
        { intros <-. simpl in Hnd. apply NoDup_cons in Hnd as [Hnd _].
          apply Hnd. apply elem_of_app. right. left. }
        destruct (String.eqb_spec key p0) as [|_]; [contradiction|].
        rewrite <- app_assoc in Hq'. simpl in Hq'.
        destruct (IH _ pre (post ++ [k'])%list s2 Hinv' Hq'
                    ltac:(now rewrite Hget') Hrun) as [IH1 IH2].
        rewrite length_app in IH1, IH2. simpl in *.
        split; intros Hlen; [apply IH1 | apply IH2]; lia.
    + rewrite Hq in Hq'. rewrite <- app_assoc in Hq'. simpl in Hq'.
      destruct (IH _ pre (post ++ [k'])%list s2 Hinv' Hq'
                  ltac:(now rewrite Hget') Hrun) as [IH1 IH2].
      rewrite length_app in IH1, IH2. simpl in *.
      split; intros Hlen; [apply IH1 | apply IH2]; lia.
Qed.

(** X3: when requests are served one after the other, a dataset stored by
    [cacheData] stays cached through the next nine cache misses and is gone
    after the tenth, whatever the keys of these misses and however full the
    cache was. *)
Theorem cache_entry_lifetime (st : ServerState) (Hserved : served st)
    (key : string) (responses : list Submission)
    (ins : list (string * list Submission)) (st2 : ServerState)
    (Hmiss : map_has (cache st) key = false)
    (Hins : cacheMisses ins (cacheData key responses st) = Some st2) :
  ((length ins <= 9)%nat -> map_get (cache st2) key = Some responses)
  /\ (length ins = 10%nat -> map_get (cache st2) key = None).
Proof.
  pose proof (served_seqInv st Hserved) as Hinv.
  pose proof (seqInv_cacheData key responses st Hinv Hmiss) as Hinv1.
  assert (Hq : exists pre, queue (cacheData key responses st)
                           = (pre ++ key :: [])%list).
  { unfold cacheData. simpl. eexists. reflexivity. }
  destruct Hq as (pre & Hq).
  assert (Hget : map_get (cache (cacheData key responses st)) key
                 = Some responses).
  { unfold cacheData. simpl. apply map_get_set. }
  exact (cacheMisses_lifetime key responses ins _ pre [] st2 Hinv1 Hq Hget Hins).
Qed.

Lemma cache_entry_lifetime_witness :
  exists st2,
    cacheMisses
      [("a0", []); ("a1", []); ("a2", []); ("a3", []); ("a4", []);
       ("a5", []); ("a6", []); ("a7", []); ("a8", [])]
      (cacheData "key" (recordsFrom 0 1) initialState) = Some st2
    /\ map_get (cache st2) "key" = Some (recordsFrom 0 1).
Proof.
  eexists. split; [reflexivity|].
  apply (cache_entry_lifetime initialState served_init "key"
           (recordsFrom 0 1)
           [("a0", []); ("a1", []); ("a2", []); ("a3", []); ("a4", []);
            ("a5", []); ("a6", []); ("a7", []); ("a8", [])]
           _ eq_refl eq_refl).
  simpl. lia.
Defined.

(** ** What the fetch loop returns *)









(** ** When the handler reports an error *)

Lemma fetchLoop_failed_request fuel getPage :
  forall responses offset totalPages,
    fst (fetchLoop fuel getPage responses offset totalPages) = FetchFailed ->
    exists o,
      o ∈ snd (fetchLoop fuel getPage responses offset totalPages)
      /\ getPage o = None.
Proof.
  induction fuel as [|fuel IH]; intros rs off tp; simpl; [discriminate|].
  destruct (offset_lt off tp); [|discriminate].
  destruct (getPage off) as [resp|] eqn:Hget.
  - specialize (IH (rs ++ page_responses resp)%list (off + 150)
                   (Count (page_pageCount resp))).
    destruct (fetchLoop fuel getPage _ _ _) as [out reqs]. simpl in *.
    intros Hout. destruct (IH Hout) as (o & Ho & Hnone).
    exists o. split; [now right | exact Hnone].
  - intros _. exists off. split; [left | exact Hget].
Qed.

(** X6: the handler reports an error only after a page request failed: an
    error payload is always [{error: "Request failed!"}], the key was not
    cached, one of the offsets the loop requested was answered by a failure,
    and cache and queue are as before.  A request answered from the cache
    never gives an error. *)
Theorem handler_error_only_on_failure (fuel : nat) (api : RemoteApi)
    (req : Request) (st st' : ServerState) (e : string)
    (Hrun : handler fuel api req st = Some (Error e, st')) :
  e = "Request failed!"
  /\ st' = st
  /\ map_has (cache st) (cacheKey req) = false
  /\ exists o,
       o ∈ snd (fetchAll fuel (api (formId req) (params req)))
       /\ api (formId req) (params req) o = None.
Proof.
  unfold handler in Hrun.
  destruct (map_has (cache st) (cacheKey req)).
  - destruct (map_get (cache st) (cacheKey req)); discriminate.
  - destruct (fst (fetchAll fuel (api (formId req) (params req)))) eqn:Hout;
      try discriminate.
    injection Hrun as <- <-. repeat split.
    now apply fetchLoop_failed_request.
Qed.

Lemma handler_error_only_on_failure_witness :
  exists o,
    o ∈ snd (fetchAll 3 failingRemote) /\ failingRemote o = None.
Proof.
  apply (handler_error_only_on_failure 3 (fun _ _ => failingRemote)
           plainRequest initialState initialState "Request failed!" eq_refl).
Defined.

(** ** More on the filter block *)

Lemma lastClause_None k fs :
  lastClause k fs = None <-> k ∉ map filter_id fs.
Proof.
  induction fs as [|f fs IH]; simpl.
  - split; [intros _; apply not_elem_of_nil | reflexivity].
  - rewrite not_elem_of_cons, <- IH.
    destruct (lastClause k fs); [split; [discriminate | intros [_ H]; discriminate]|].
    destruct (String.eqb_spec (filter_id f) k) as [<-|Hne].
    + split; [discriminate | intros [H _]; congruence].
    + split; [intros _; split; [congruence | reflexivity] | reflexivity].
Qed.

Lemma lastClause_app k fs1 fs2 :
  lastClause k (fs1 ++ fs2)%list
  = match lastClause k fs2 with
    | Some c => Some c
    | None => lastClause k fs1
    end.
Proof.
  induction fs1 as [|f fs1 IH]; simpl.
  - now destruct (lastClause k fs2).
  - rewrite IH. now destruct (lastClause k fs2), (lastClause k fs1).
Qed.

(** X7: absence is not failure: a record none of whose questions is named
    by a clause passes every Filter Set, and a dataset in which this holds
    of every record comes out of the filter block as it went in. *)
Theorem unnamed_questions_pass (fs : ResponseFiltersType)
    (D : list Submission)
    (Hunnamed : forall r q c,
        r ∈ D -> q ∈ questions r -> c ∈ fs ->
        question_id q <> filter_id c) :
  (forall r, r ∈ D -> keepResponse (buildConditions fs) r = true)
  /\ filterResponses (Some fs) D = D.
Proof.
  assert (Hkeep : forall r, r ∈ D -> keepResponse (buildConditions fs) r = true).
  { intros r Hr. apply keepResponse_spec. intros q c Hq Hc.
    rewrite buildConditions_lookup in Hc.
    apply lastClause_Some in Hc as [Hin Hid].
    exfalso. now apply (Hunnamed r q c). }
  split; [exact Hkeep|]. simpl.
  induction D as [|r D IH]; simpl; [reflexivity|].
  rewrite Hkeep by left. f_equal. apply IH.
  - intros r' q c Hr'. apply Hunnamed. now right.
  - intros r' Hr'. apply Hkeep. now right.
Qed.

Lemma unnamed_questions_pass_witness :
  filterResponses
    (Some [ {| filter_id := "q2"; filter_condition := equals;
               filter_value := num 1 |} ])
    [answersTwo]
  = [answersTwo].
Proof.
  apply unnamed_questions_pass.
  intros r q c Hr Hq Hc.
  apply list_elem_of_singleton in Hr. subst r.
  apply list_elem_of_singleton in Hq. subst q.
  apply list_elem_of_singleton in Hc. subst c.
  discriminate.
Defined.

Lemma filter_filter {A : Type} (p1 p2 : A -> bool) (l : list A) :
  List.filter p2 (List.filter p1 l)
  = List.filter (fun x => p1 x && p2 x) l.
Proof.
  induction l as [|x l IH]; simpl; [reflexivity|].
  destruct (p1 x); simpl; [|exact IH].
  destruct (p2 x); [now rewrite IH | exact IH].
Qed.

(** X8: Filter Sets compose: when no id of [fs1] is an id of [fs2], applying
    the two lists as one Filter Set gives what applying [fs1] and then [fs2]
    to its result gives; so adding clauses on new ids can only remove
    records. *)
Theorem filterResponses_app (fs1 fs2 : ResponseFiltersType)
    (D : list Submission)
    (Hdisjoint : forall c1 c2,
        c1 ∈ fs1 -> c2 ∈ fs2 -> filter_id c1 <> filter_id c2) :
  filterResponses (Some (fs1 ++ fs2)%list) D
  = filterResponses (Some fs2) (filterResponses (Some fs1) D)
  /\ filterResponses (Some (fs1 ++ fs2)%list) D
     `sublist_of` filterResponses (Some fs1) D.
Proof.
  assert (Heq : filterResponses (Some (fs1 ++ fs2)%list) D
                = filterResponses (Some fs2) (filterResponses (Some fs1) D)).
  { simpl. rewrite filter_filter. apply List.filter_ext. intros r.
    apply eq_true_iff_eq. rewrite andb_true_iff, !keepResponse_spec.
    split.
    - intros H. split; intros q c Hq Hc; apply (H q c Hq);
        rewrite buildConditions_lookup in *; rewrite lastClause_app.
      + destruct (lastClause (question_id q) fs2) as [c2|] eqn:H2;
          [|exact Hc].
        apply lastClause_Some in Hc as [Hc1 Hid1].
        apply lastClause_Some in H2 as [Hc2 Hid2].
        exfalso. apply (Hdisjoint c c2 Hc1 Hc2). congruence.
      + now rewrite Hc.
    - intros [H1 H2] q c Hq Hc.
      rewrite buildConditions_lookup, lastClause_app in Hc.
      destruct (lastClause (question_id q) fs2) as [c2|] eqn:Hl2.
      + injection Hc as <-. apply (H2 q c2 Hq).
        now rewrite buildConditions_lookup.
      + apply (H1 q c Hq). now rewrite buildConditions_lookup. }
  split; [exact Heq|]. rewrite Heq. apply filter_sublist.
Qed.

Lemma filterResponses_app_witness :
  filterResponses
    (Some ([ {| filter_id := "q1"; filter_condition := equals;
                filter_value := num 2 |} ]
           ++ [ {| filter_id := "q2"; filter_condition := equals;
                   filter_value := num 1 |} ])%list)
    [answersTwo]
  = filterResponses
      (Some [ {| filter_id := "q2"; filter_condition := equals;
                 filter_value := num 1 |} ])
      (filterResponses
         (Some [ {| filter_id := "q1"; filter_condition := equals;
                    filter_value := num 2 |} ])
         [answersTwo]).
Proof.
  apply filterResponses_app.
  intros c1 c2 H1 H2.
  apply list_elem_of_singleton in H1. subst c1.
  apply list_elem_of_singleton in H2. subst c2.
  discriminate.
Defined.

(** X9: the order of the clauses does not matter when their ids are
    pairwise distinct: two Filter Sets that are permutations of each other
    give the same Map of conditions and the same filtered dataset. *)
Theorem filterResponses_permutation (fs1 fs2 : ResponseFiltersType)
    (D : list Submission)
    (Hperm : Permutation fs1 fs2)
    (Hdistinct : NoDup (map filter_id fs1)) :
  buildConditions fs1 = buildConditions fs2
  /\ filterResponses (Some fs1) D = filterResponses (Some fs2) D.
Proof.
  assert (Hdistinct2 : NoDup (map filter_id fs2)).
  { assert (Hp : Permutation (map filter_id fs1) (map filter_id fs2))
      by now apply Permutation_map.
    now rewrite <- Hp. }
  assert (Hmap : buildConditions fs1 = buildConditions fs2).
  { apply map_eq. intros k. rewrite !buildConditions_lookup.
    destruct (lastClause k fs1) as [c|] eqn:H1.
    - apply lastClause_Some in H1 as [Hin <-]. symmetry.
      apply lastClause_distinct; [exact Hdistinct2|].
      now rewrite <- Hperm.
    - destruct (lastClause k fs2) as [c|] eqn:H2; [|reflexivity].
      apply lastClause_Some in H2 as [Hin <-].
      rewrite lastClause_distinct in H1; [discriminate | exact Hdistinct|].
      now rewrite Hperm. }
  split; [exact Hmap|]. simpl. now rewrite Hmap.
Qed.

Lemma filterResponses_permutation_witness :
  buildConditions
    [ {| filter_id := "q1"; filter_condition := equals;
         filter_value := num 2 |};
      {| filter_id := "q2"; filter_condition := less_than;
         filter_value := num 1 |} ]
  = buildConditions
      [ {| filter_id := "q2"; filter_condition := less_than;
           filter_value := num 1 |};
        {| filter_id := "q1"; filter_condition := equals;
           filter_value := num 2 |} ].
Proof.
  apply (filterResponses_permutation _ _ []).
  - apply perm_swap.
  - simpl. apply NoDup_cons. split; [|apply NoDup_singleton].
    intros H. apply list_elem_of_singleton in H. discriminate H.
Defined.

(** ** The four conditions against one another *)

Lemma numberBelow_asym (x y : JsNumber) :
  numberBelow x y = true -> numberBelow y x = false.
Proof.
  unfold numberBelow.
  destruct x as [| |a|], y as [| |b|]; simpl; try congruence.
  unfold Qltb. rewrite Z.ltb_lt, Z.ltb_ge. lia.
Qed.

Lemma Number_equal_not_below (x y : JsNumber) :
  Number_equal x y = true -> numberBelow x y = false.
Proof.
  unfold numberBelow.
  destruct x as [| |a|], y as [| |b|]; simpl; try congruence.
  rewrite Qeq_bool_iff. unfold Qeq, Qltb. rewrite Z.ltb_ge. lia.
Qed.

Lemma Number_equal_sym (x y : JsNumber) :
  Number_equal x y = Number_equal y x.
Proof.
  destruct x as [| |a|], y as [| |b|]; simpl; try reflexivity.
  apply eq_true_iff_eq. rewrite !Qeq_bool_iff. split; intros H; now symmetry.
Qed.

Lemma Number_trichotomy (x y : JsNumber) :
  x <> NaN -> y <> NaN ->
  Number_equal x y = false ->
  numberBelow x y = true \/ numberBelow y x = true.
Proof.
  unfold numberBelow.
  destruct x as [| |a|], y as [| |b|]; simpl; try congruence; auto.
  intros _ _ Hne. unfold Qltb. rewrite !Z.ltb_lt.
  assert (H : ~ Qeq a b).
  { intros H. apply Qeq_bool_iff in H. congruence. }
  unfold Qeq in H. lia.
Qed.

Lemma String_lessThan_irrefl (s : string) : String_lessThan s s = false.
Proof.
  induction s as [|c s IH]; simpl; [reflexivity|].
  now rewrite Z.eqb_refl.
Qed.

Lemma String_lessThan_asym (s t : string) :
  String_lessThan s t = true -> String_lessThan t s = false.
Proof.
  revert t. induction s as [|c s IH]; intros [|d t]; simpl; try congruence.
  rewrite (Z.eqb_sym (codeUnit d)).
  destruct (Z.eqb_spec (codeUnit c) (codeUnit d)); [apply IH|].
  rewrite Z.ltb_lt, Z.ltb_ge. lia.
Qed.

Lemma String_trichotomy (s t : string) :
  String.eqb s t = false ->
  String_lessThan s t = true \/ String_lessThan t s = true.
Proof.
  revert t. induction s as [|c s IH]; intros [|d t]; simpl;
    [discriminate | now left | now right |].
  rewrite (Z.eqb_sym (codeUnit d)).
  destruct (Z.eqb_spec (codeUnit c) (codeUnit d)) as [Heq|Hne].
  - apply codeUnit_inj in Heq. subst d. rewrite Ascii.eqb_refl. apply IH.
  - intros _. rewrite !Z.ltb_lt. lia.
Qed.

Lemma js_lt_asym (x y : JsValue) : js_lt x y = true -> js_lt y x = false.
Proof.
  unfold js_lt, IsLessThan.
  destruct x as [a|s], y as [b|t]; try apply numberBelow_asym.
  apply String_lessThan_asym.
Qed.

Lemma js_strict_eq_not_lt (x y : JsValue) :
  js_strict_eq x y = true -> js_lt x y = false /\ js_lt y x = false.
Proof.
  unfold js_lt, IsLessThan.
  destruct x as [a|s], y as [b|t]; simpl; try discriminate.
  - intros H. split; apply Number_equal_not_below; [exact H|].
    now rewrite Number_equal_sym.
  - intros H. apply String.eqb_eq in H. subst t.
    now rewrite String_lessThan_irrefl.
Qed.

(** X10: for one answer and one condition value, at most one of [equals],
    [greater_than] and [less_than] holds, and [does_not_equal] holds exactly
    when [equals] does not; when the two values are of the same type and
    neither is NaN, exactly one of the three holds. *)
Theorem conditions_exclusive (c : FilterClauseType) (q : HasIdWithValue) :
  let E := evalCondition (withCondition equals c) q in
  let N := evalCondition (withCondition does_not_equal c) q in
  let G := evalCondition (withCondition greater_than c) q in
  let L := evalCondition (withCondition less_than c) q in
  N = negb E
  /\ (E = true -> G = false /\ L = false)
  /\ (G = true -> L = false)
  /\ (sameType (question_value q) (filter_value c) ->
      notNaN (question_value q) -> notNaN (filter_value c) ->
      E = true \/ G = true \/ L = true).
Proof.
  unfold evalCondition, withCondition; simpl. unfold js_gt.
  fold (js_lt (filter_value c) (question_value q)).
  fold (js_lt (question_value q) (filter_value c)).
  split; [reflexivity|]. split; [|split].
  - intros H. apply js_strict_eq_not_lt in H. tauto.
  - apply js_lt_asym.
  - unfold sameType, notNaN, js_lt, IsLessThan.
    destruct (question_value q) as [a|s], (filter_value c) as [b|t];
      simpl; try contradiction; intros _ Ha Hb.
    + destruct (Number_equal a b) eqn:Heq; [now left | right].
      fold (numberBelow b a). fold (numberBelow a b).
      destruct (Number_trichotomy a b ltac:(congruence) ltac:(congruence) Heq);
        auto.
    + destruct (String.eqb s t) eqn:Heq; [now left | right].
      destruct (String_trichotomy s t Heq); auto.
Qed.

Lemma conditions_exclusive_witness :
  evalCondition (withCondition equals greaterThanFive)
    {| question_id := "q1"; question_value := VStr "50" |} = true
  \/ evalCondition (withCondition greater_than greaterThanFive)
       {| question_id := "q1"; question_value := VStr "50" |} = true
  \/ evalCondition (withCondition less_than greaterThanFive)
       {| question_id := "q1"; question_value := VStr "50" |} = true.
Proof.
  apply (conditions_exclusive greaterThanFive
           {| question_id := "q1"; question_value := VStr "50" |});
    [exact I | discriminate | discriminate].
Defined.

(** ** More on windowing *)

Lemma filterResponses_sublist_of (F : option ResponseFiltersType)
    (D : list Submission) :
  filterResponses F D `sublist_of` D.
Proof.
  destruct F as [fs|]; simpl; [apply filter_sublist | reflexivity].
Qed.

Lemma take_chunks {A : Type} (L : nat) (l : list A) (k : nat) :
  concat (map (fun i => take L (drop (L * i) l)) (seq 0 k)) = take (L * k) l.
Proof.
  induction k as [|k IH].
  - simpl. now rewrite Nat.mul_0_r, take_0.
  - rewrite seq_S, map_app, concat_app, IH. simpl.
    rewrite app_nil_r, take_take_drop. f_equal. lia.
Qed.

Lemma respond_withWindow (o l : Z) (req : Request) (D : list Submission) :
  0 <= o -> 0 <= l ->
  payloadResponses (respond (withWindow o l req) D)
  = take (Z.to_nat l) (drop (Z.to_nat o) (filterResponses (filters req) D)).
Proof. intros Ho Hl. simpl. now apply js_slice_window. Qed.

(** X11: paging covers the filtered dataset exactly once: for a positive
    limit [l], the pages asked at the offsets 0, l, 2l, ..., as many as
    [pageCount] says, put one after the other are the filtered dataset, and
    every page from [pageCount] on is empty. *)
Theorem pages_cover_dataset (req : Request) (D : list Submission) (l : Z)
    (Hl : 0 < l) :
  let F := filterResponses (filters req) D in
  let n := Z.to_nat (ceilDiv (Z.of_nat (length F)) l) in
  (forall o, exists rs,
      respond (withWindow o l req) D
      = Page rs (Z.of_nat (length F)) (Fin (inject_Z (Z.of_nat n))))
  /\ concat (map (fun i : nat =>
                    payloadResponses
                      (respond (withWindow (l * Z.of_nat i) l req) D))
                 (seq 0 n)) = F
  /\ (forall i : nat, (n <= i)%nat ->
        payloadResponses (respond (withWindow (l * Z.of_nat i) l req) D) = []).
Proof.
  intros F n.
  pose proof (ceilDiv_spec (Z.of_nat (length F)) l Hl) as Hceil.
  assert (Hn : Z.of_nat n = ceilDiv (Z.of_nat (length F)) l).
  { unfold n. rewrite Z2Nat.id; [reflexivity | nia]. }
  split; [|split].
  - intros o. eexists. unfold respond. simpl. fold F.
    change (resLimit (withWindow o l req)) with l.
    unfold Math_ceil_div. destruct (Z.eqb_spec l 0); [lia|].
    rewrite Hn. reflexivity.
  - erewrite map_ext.
    2:{ intros i. rewrite respond_withWindow by nia. fold F.
        replace (Z.to_nat (l * Z.of_nat i)) with (Z.to_nat l * i)%nat by nia.
        reflexivity. }
    rewrite take_chunks. apply take_ge. nia.
  - intros i Hi. rewrite respond_withWindow by nia. fold F.
    rewrite drop_ge by nia. apply take_nil.
Qed.

Lemma pages_cover_dataset_witness :
  concat (map (fun i : nat =>
                 payloadResponses
                   (respond (withWindow (100 * Z.of_nat i) 100 plainRequest)
                            (recordsFrom 0 150)))
              (seq 0 2))
  = recordsFrom 0 150.
Proof.
  apply (pages_cover_dataset plainRequest (recordsFrom 0 150) 100). lia.
Defined.

(** X12: with a limit that is zero, the 0 of the strings "0" and "+0" or
    the negative zero of "-0", all of which the validation admits, the
    window is empty whatever the offset, and [pageCount] is no finite
    number: [Math.ceil] of a division by zero, which is NaN when no record
    passed the filters, and otherwise Infinity for the limit 0 and
    -Infinity for the limit -0. *)
Theorem limit_zero_window (req : Request) (D : list Submission)
    (l : ParsedInt) (Hlimit : limit req = Some l) (Hzero : intValue l = 0) :
  let n := Z.of_nat (length (filterResponses (filters req) D)) in
  respond req D
  = Page [] n
         (if n =? 0 then NaN
          else match l with
               | NegativeZero => NegInf
               | Integer _ => PosInf
               end).
Proof.
  intros n. unfold respond, resLimit, parsedLimit. rewrite Hlimit. fold n.
  rewrite Hzero. f_equal.
  - unfold js_slice.
    replace (0 + resOffset req) with (resOffset req) by lia.
    now rewrite Z.sub_diag.
  - assert (Hn : 0 <= n) by (unfold n; lia).
    destruct l as [|d]; simpl in *; [|subst d];
      unfold Math_ceil_div; simpl;
      destruct (Z.eqb_spec n 0); try reflexivity;
      destruct (Z.ltb_spec 0 n); try reflexivity; lia.
Qed.

Lemma limit_zero_window_witness :
  respond {| formId := "form"; params := noParams; filters := None;
             offset := Some 5; limit := Some NegativeZero |}
          [answersTwo]
  = Page [] 1 NegInf.
Proof.
  apply (limit_zero_window
           {| formId := "form"; params := noParams; filters := None;
              offset := Some 5; limit := Some NegativeZero |}
           [answersTwo] NegativeZero eq_refl eq_refl).
Defined.

(** X13: a negative offset, which the validation lets through, counts from
    the end of the filtered dataset: when the dataset has at least [- o]
    records and [limit + o] reaches its end, the window is its last [- o]
    records. *)
Theorem negative_offset_window (req : Request) (D : list Submission) (o : Z)
    (Hoffset : offset req = Some o) (Hneg : o < 0) :
  let F := filterResponses (filters req) D in
  - o <= Z.of_nat (length F) ->
  Z.of_nat (length F) <= resLimit req + o ->
  payloadResponses (respond req D)
  = drop (length F - Z.to_nat (- o)) F.
Proof.
  intros F Hlen Hend. unfold respond, resOffset. rewrite Hoffset. fold F.
  simpl. unfold js_slice.
  destruct (Z.ltb_spec o 0); [|lia].
  destruct (Z.ltb_spec (resLimit req + o) 0); [lia|].
  rewrite take_ge by (rewrite length_drop; lia).
  f_equal. lia.
Qed.

Lemma negative_offset_window_witness :
  payloadResponses
    (respond (withWindow (-1) 150 plainRequest) (recordsFrom 0 3))
  = recordsFrom 2 1.
Proof.
  apply (negative_offset_window (withWindow (-1) 150 plainRequest)
           (recordsFrom 0 3) (-1) eq_refl).
  - reflexivity.
  - apply Z.leb_le. reflexivity.
  - apply Z.leb_le. reflexivity.
Defined.

(** ** Where a page comes from *)

Lemma handler_page_cached fuel api req st rs total pc st' :
  handler fuel api req st = Some (Page rs total pc, st') ->
  exists cached,
    map_get (cache st') (cacheKey req) = Some cached
    /\ respond req cached = Page rs total pc.
Proof.
  unfold handler. intros Hrun.
  destruct (map_has (cache st) (cacheKey req)).
  - destruct (map_get (cache st) (cacheKey req)) as [cached|] eqn:Hget;
      [|discriminate].
    assert (E : respond req cached = Page rs total pc /\ st = st')
      by (split; congruence).
    destruct E as [Hresp <-]. now exists cached.
  - destruct (fst (fetchAll fuel (api (formId req) (params req))))
      as [responses| |]; try discriminate.
    assert (E : respond req responses = Page rs total pc
                /\ cacheData (cacheKey req) responses st = st')
      by (split; congruence).
    destruct E as [Hresp <-]. exists responses. split; [|exact Hresp].
    unfold cacheData. simpl. apply map_get_set.
Qed.

Lemma js_slice_sublist {A : Type} (l : list A) (start end_ : Z) :
  js_slice l start end_ `sublist_of` l.
Proof.
  unfold js_slice. etransitivity; [apply sublist_take | apply sublist_drop].
Qed.

(** X14: every page the handler answers is cut from the dataset that is
    cached under the key of the request when the handler returns: its
    [responses] are a subsequence of that dataset, [totalResponses] counts
    the records of the dataset that pass the filters, and
    [responses.length <= totalResponses <= ] the size of the dataset. *)
Theorem handler_page_provenance (fuel : nat) (api : RemoteApi) (req : Request)
    (st st' : ServerState) (rs : list Submission) (total : Z) (pc : JsNumber)
    (Hrun : handler fuel api req st = Some (Page rs total pc, st')) :
  exists cached,
    map_get (cache st') (cacheKey req) = Some cached
    /\ rs `sublist_of` cached
    /\ total = Z.of_nat (length (filterResponses (filters req) cached))
    /\ Z.of_nat (length rs) <= total <= Z.of_nat (length cached).
Proof.
  destruct (handler_page_cached _ _ _ _ _ _ _ _ Hrun) as (cached & Hget & Hresp).
  exists cached. split; [exact Hget|].
  unfold respond in Hresp. injection Hresp as <- <- _.
  pose proof (js_slice_sublist (filterResponses (filters req) cached)
                (resOffset req) (resLimit req + resOffset req)) as Hslice.
  pose proof (filterResponses_sublist_of (filters req) cached) as Hfilter.
  split; [etransitivity; [exact Hslice | exact Hfilter]|].
  split; [reflexivity|].
  apply sublist_length in Hslice, Hfilter. lia.
Qed.

Lemma handler_page_provenance_witness :
  exists cached,
    map_get (cache (cacheData (cacheKey plainRequest) (recordsFrom 0 150)
                              initialState))
            (cacheKey plainRequest) = Some cached
    /\ recordsFrom 0 150 `sublist_of` cached.
Proof.
  destruct (handler_page_provenance 2 (fun _ _ => pagedRemote twoPages)
              plainRequest initialState _ _ _ _ eq_refl)
    as (cached & Hget & Hsub & _).
  now exists cached.
Defined.

(** ** Keys do not collide *)

(** X15: keys do not collide: two requests with the same cache key have the
    same [formId] and the same five query parameters, each present or absent
    in both and with the same value; so no request is ever answered from the
    dataset of another form or of other parameters. *)
Theorem cacheKey_injective (r1 r2 : Request)
    (Hkey : cacheKey r1 = cacheKey r2) :
  formId r1 = formId r2 /\ params r1 = params r2.
Proof.
  pose proof (readKey_cacheKey r1) as H1.
  pose proof (readKey_cacheKey r2) as H2.
  rewrite Hkey, H2 in H1. now injection H1 as -> ->.
Qed.

Lemma cacheKey_injective_witness :
  formId plainRequest = formId windowedRequest
  /\ params plainRequest = params windowedRequest.
Proof.
  apply (cacheKey_injective plainRequest windowedRequest). reflexivity.
Defined.

(** ** The validator of [filters] *)

Lemma conditionOfString_names (name : string) :
  existsb (String.eqb name) conditionNames = true
  <-> exists kind, conditionOfString name = Some kind.
Proof.
  unfold conditionOfString, conditionNames. simpl.
  destruct (String.eqb name "equals"); [split; eauto|].
  destruct (String.eqb name "does_not_equal"); [split; eauto|].
  destruct (String.eqb name "greater_than"); [split; eauto|].
  destruct (String.eqb name "less_than"); [split; eauto|].
  split; [discriminate | intros [kind H]; discriminate H].
Qed.

Lemma String_length_0 (s : string) :
  (String.length s =? 0)%nat = true <-> s = EmptyString.
Proof. destruct s; simpl; split; congruence. Qed.

(** The callback lets a clause through exactly when the filter block can
    read it as a clause with an id that is not empty. *)
Lemma validateClause_None (filter : Json) :
  validateClause filter = None
  <-> exists c, clauseOfJson filter = Some c /\ filter_id c <> EmptyString.
Proof.
  unfold validateClause, clauseOfJson, getProperty.
  destruct filter as [| | | | |members];
    try (split; [discriminate | intros (c & H & _); discriminate H]).
  destruct (lastMember "id" members) as [[| | |id| |]|];
    try (split; [discriminate | intros (c & H & _); discriminate H]).
  destruct (String.length id =? 0)%nat eqn:Hid.
  - apply String_length_0 in Hid. subst id.
    split; [discriminate|]. intros (c & H & Hne).
    destruct (lastMember "condition" members) as [[| | |cond| |]|];
      try discriminate H.
    destruct (lastMember "value" members) as [value|]; [|discriminate H].
    destruct (conditionOfString cond), (valueOfJson value);
      try discriminate H.
    injection H as <-. exfalso. now apply Hne.
  - assert (Hne : id <> EmptyString).
    { intros ->. discriminate Hid. }
    destruct (lastMember "condition" members) as [[| | |cond| |]|];
      try (split; [discriminate | intros (c & H & _); discriminate H]).
    pose proof (conditionOfString_names cond) as Hnames.
    destruct (existsb (String.eqb cond) conditionNames).
    + destruct (proj1 Hnames eq_refl) as [kind ->].
      destruct (lastMember "value" members) as [[| |n|v| |]|]; simpl;
        try (split; [discriminate | intros (c & H & _); discriminate H]);
        (split; [intros _ | reflexivity]); eexists; split;
          [reflexivity | exact Hne | reflexivity | exact Hne].
    + destruct (conditionOfString cond) as [kind|] eqn:Hk.
      * discriminate (proj2 Hnames (ex_intro _ kind eq_refl)).
      * split; [discriminate|]. intros (c & H & _).
        destruct (lastMember "value" members); discriminate H.
Qed.

Lemma validateFilters_None (filterClauses : Json) :
  validateFilters filterClauses = None
  <-> exists fs,
        filtersOfJson filterClauses = Some fs
        /\ Forall (fun c => filter_id c <> EmptyString) fs.
Proof.
  unfold validateFilters, filtersOfJson.
  destruct filterClauses as [| | | |items|];
    try (split; [discriminate | intros (fs & H & _); discriminate H]).
  induction items as [|filter items IH]; simpl.
  - split; [intros _; exists []; split; [reflexivity | constructor]
           | reflexivity].
  - pose proof (validateClause_None filter) as Hclause.
    destruct (validateClause filter) as [e|].
    + split; [discriminate|]. intros (fs & H & Hall).
      destruct (clauseOfJson filter) as [c|] eqn:Hc; [|discriminate H].
      simpl in H. destruct (mapM clauseOfJson items) as [cs|];
        [|discriminate H].
      injection H as <-. apply Forall_cons in Hall as [Hid _].
      assert (Hnone : @None Thrown = None) by reflexivity.
      destruct Hclause as [_ Hclause].
      discriminate (Hclause (ex_intro _ c (conj eq_refl Hid))).
    + destruct (proj1 Hclause eq_refl) as (c & -> & Hid). simpl.
      rewrite IH. split.
      * intros (fs & -> & Hall). exists (c :: fs).
        split; [reflexivity | now constructor].
      * intros (fs & H & Hall).
        destruct (mapM clauseOfJson items) as [cs|]; [|discriminate H].
        injection H as <-. apply Forall_cons in Hall as [_ Hall].
        now exists cs.
Qed.

(** X16: [validateFilters] returns [true] exactly for the parsed values the
    filter block can read as a Filter Set all of whose ids are non-empty
    strings: an array of objects, each with a string [id] that is not
    empty, a [condition] among the four names and a [value] that is a
    string or a number. *)
Theorem validateFilters_accepts (filterClauses : Json) :
  validateFilters filterClauses = None
  <-> exists fs,
        filtersOfJson filterClauses = Some fs
        /\ Forall (fun c => filter_id c <> EmptyString) fs.
Proof. apply validateFilters_None. Qed.

Lemma clauseOfJson_jsonOfClause (c : FilterClauseType) :
  clauseOfJson (jsonOfClause c) = Some c.
Proof.
  destruct c as [id kind v]. unfold clauseOfJson, jsonOfClause. simpl.
  now destruct kind, v.
Qed.

(** X17: every Filter Set is read back from its JSON value as it is, and it
    passes the validator exactly when none of its ids is the empty
    string. *)
Theorem jsonOfFilters_round_trip (fs : ResponseFiltersType) :
  filtersOfJson (jsonOfFilters fs) = Some fs
  /\ (validateFilters (jsonOfFilters fs) = None
      <-> Forall (fun c => filter_id c <> EmptyString) fs).
Proof.
  assert (Hread : filtersOfJson (jsonOfFilters fs) = Some fs).
  { unfold filtersOfJson, jsonOfFilters. apply mapM_Some.
    induction fs as [|c fs IH]; simpl; constructor;
      [apply clauseOfJson_jsonOfClause | exact IH]. }
  split; [exact Hread|]. rewrite validateFilters_None, Hread. split.
  - now intros (fs' & [= <-] & Hall).
  - intros Hall. now exists fs.
Qed.

(** X18: the validator stops at the first clause it rejects: what it throws
    on an array is what the callback throws on the first clause that does
    not pass, whatever follows that clause. *)
Theorem validateFilters_first_error (good rest : list Json) (bad : Json)
    (e : Thrown)
    (Hgood : Forall (fun filter => validateClause filter = None) good)
    (Hbad : validateClause bad = Some e) :
  validateFilters (JArray (good ++ bad :: rest)) = Some e.
Proof.
  simpl. induction Hgood as [|filter good Hfilter _ IH]; simpl.
  - now rewrite Hbad.
  - now rewrite Hfilter.
Qed.

Lemma validateFilters_first_error_witness :
  validateFilters
    (JArray ([jsonOfClause greaterThanFive]
             ++ JObject [("id", JString EmptyString)] :: [JNull]))
  = Some (InvalidField "id is invalid").
Proof.
  apply (validateFilters_first_error [jsonOfClause greaterThanFive] [JNull]
           (JObject [("id", JString EmptyString)])).
  - repeat constructor.
  - reflexivity.
Defined.
